(** * mincombo: cheapest restaurant for a list of requested items

    A shallow embedding of [mincombo.py] (Python 2) and the properties of
    its functions [reduce_menu], [get_price], [get_item_combos],
    [is_valid_combo], [get_min_cost] and of the loop of [main].

    Python values are modelled as the program has them: a menu is a list
    of combos, a combo is the list of strings [cost; item1; item2; ...]
    read from one line of the input file, an item combination is a list
    of integers, a float is an IEEE 754 binary64 number, [set] is a
    finite set and the dictionary [has_items] a finite map.  A raised
    exception is an explicit result. *)

From Stdlib Require Import ZArith Floats Lia.
From stdpp Require Import base tactics option list sorting gmap strings.

Open Scope Z_scope.

#[local] Set Warnings "-clear-no-such-hyp".

(** ** Exceptions and results *)

Inductive exn : Set :=
| AttributeError
| IndexError
| KeyError
| OverflowError
| TypeError
| ValueError.

Inductive result (A : Type) : Type :=
| Ok (a : A)
| Raise (e : exn).

Arguments Ok {A} a.
Arguments Raise {A} e.

#[global] Instance result_ret : MRet result := λ A a, Ok a.

#[global] Instance result_bind : MBind result := λ A B f m,
  match m with
  | Ok a => f a
  | Raise e => Raise e
  end.

Definition is_ok {A} (r : result A) : bool :=
  match r with
  | Ok _ => true
  | Raise _ => false
  end.

(** ** The Python builtins the program uses *)

(** A menu line after [split(',')]: the cost followed by the items. *)
Abbreviation combo := (list string) (only parsing).
Abbreviation menu := (list (list string)) (only parsing).

(** The values [get_min_cost] returns and [main] keeps in [min_cost]:
    [None], the string [menu[0][0]] or a float. *)
Inductive pyval : Type :=
| VNone
| VStr (s : string)
| VFloat (f : float).

#[global] Instance float_eq_dec : EqDecision float.
Proof.
  intros x y. destruct (PrimFloat.Leibniz.eqb x y) eqn:E.
  - left. by apply FloatAxioms.Leibniz.eqb_spec.
  - right. intros ->.
    assert (PrimFloat.Leibniz.eqb y y = true) by by apply FloatAxioms.Leibniz.eqb_spec.
    congruence.
Defined.

#[global] Instance pyval_eq_dec : EqDecision pyval.
Proof. solve_decision. Defined.

(** [float(s)] on a string: the builtin's parser is not part of the
    program; the development is parametric in it.  [None] stands for the
    [ValueError] of a string that is not a number. *)
Class FloatOfStr := float_of_str : string → option float.

(** [l[i]] for an index that a [range] produced. *)
Definition index {A} (l : list A) (i : nat) : result A :=
  match l !! i with
  | Some x => Ok x
  | None => Raise IndexError
  end.

(** [l.length]: Python's [list] has no attribute of that name (the size
    of a list is [len(l)]), so the attribute lookup raises
    [AttributeError] whatever the list holds. *)
Definition getattr_length {A} (l : list A) : result Z := Raise AttributeError.

(** The float nearest to an integer, ties to even; infinite when the
    integer is beyond the range of the floats. *)
Definition round_int (z : Z) : float :=
  SF2Prim (binary_normalize prec emax z 0 false).

(** The conversion of an [int] operand of a float multiplication: an
    integer too large for a float raises [OverflowError]. *)
Definition float_of_int (z : Z) : result float :=
  if is_infinity (round_int z) then Raise OverflowError else Ok (round_int z).

(** [float(v)]. *)
Definition py_float `{FloatOfStr} (v : pyval) : result float :=
  match v with
  | VFloat f => Ok f
  | VStr s =>
      match float_of_str s with
      | Some f => Ok f
      | None => Raise ValueError
      end
  | VNone => Raise TypeError
  end.

(** [itertools.combinations(l, r)]: the [r]-length subsequences of [l],
    in lexicographic order of their positions. *)
Fixpoint combinations {A} (l : list A) (r : nat) {struct l} : list (list A) :=
  match r, l with
  | O, _ => [[]]
  | S _, [] => []
  | S r', x :: l' => (cons x <$> combinations l' r') ++ combinations l' r
  end.

(** ** reduce_menu *)

(** [set(a) & set(b)] followed by [len(list(...))]. *)
Definition common (a b : list string) : nat :=
  size (list_to_set a ∩ list_to_set b : gset string).

(** One iteration of the loop over the menu; the state is
    [(reduced_menu, flat_menu)], [drop 1 c] is [combo[1:]]. *)
Definition reduce_step (items : list string)
    (st : menu * list string) (c : combo) : menu * list string :=
  if decide (0 < common (drop 1 c) items)%nat
  then (st.1 ++ [c], st.2 ++ drop 1 c)
  else st.

Definition reduce_menu (m : menu) (items : list string) : option menu :=
  let st := foldl (reduce_step items) ([], []) m in
  if decide (common st.2 items ≠ length items)
  then None
  else Some st.1.

(** ** get_price *)

(** The body of the [for] loop, over the indices [range(len(item_combo))]. *)
Fixpoint price_loop `{FloatOfStr} (m : menu) (item_combo : list Z)
    (idx : list nat) (price : float) : result float :=
  match idx with
  | [] => Ok price
  | i :: idx' =>
      row ← index m i;
      cost ← index row 0;
      f ← py_float (VStr cost);
      flag ← index item_combo i;
      k ← float_of_int flag;
      price_loop m item_combo idx' (price + f * k)%float
  end.

(** The guard of [get_price] and [is_valid_combo]:
    [if (menu.length != item_combo.length): raise].  A bare [raise] with
    no exception being handled is a [TypeError] in Python 2. *)
Definition length_guard {A B} (m : list A) (item_combo : list B) : result unit :=
  ml ← getattr_length m;
  cl ← getattr_length item_combo;
  if decide (ml ≠ cl) then Raise TypeError else Ok ().

Definition get_price `{FloatOfStr} (m : menu) (item_combo : list Z) : result float :=
  _ ← length_guard m item_combo;
  price_loop m item_combo (seq 0 (length item_combo)) 0%float.

(** ** get_item_combos *)

(** [s = [0] * n] followed by [s[bit] = 1] for each bit.  Every bit
    comes from [range(n)], so the assignment is always in range. *)
Definition set_bits (n : nat) (bits : list nat) : list Z :=
  foldl (λ s bit, <[bit := 1]> s) (replicate n 0) bits.

Definition get_item_combos (n : nat) : list (list Z) :=
  foldl (λ result k,
           foldl (λ result bits, result ++ [set_bits n bits])
                 result (combinations (seq 0 n) (k + 1)))
        [] (seq 0 n).

(** ** is_valid_combo *)

(** [for y in range(len(menu[x]) - 1): has_items[menu[x][y + 1]] = True] *)
Fixpoint mark_row (row : combo) (ys : list nat)
    (has_items : gmap string bool) : result (gmap string bool) :=
  match ys with
  | [] => Ok has_items
  | y :: ys' =>
      it ← index row (y + 1);
      mark_row row ys' (<[it := true]> has_items)
  end.

(** [for x in range(len(item_combo)): if (item_combo[x] > 0): ...] *)
Fixpoint mark_loop (m : menu) (item_combo : list Z) (xs : list nat)
    (has_items : gmap string bool) : result (gmap string bool) :=
  match xs with
  | [] => Ok has_items
  | x :: xs' =>
      flag ← index item_combo x;
      if decide (0 < flag) then
        row ← index m x;
        h ← mark_row row (seq 0 (length row - 1)) has_items;
        mark_loop m item_combo xs' h
      else mark_loop m item_combo xs' has_items
  end.

(** [for item in items: if (not has_items[item]): return False] and the
    final [return True]. *)
Fixpoint check_loop (has_items : gmap string bool) (items : list string) : result bool :=
  match items with
  | [] => Ok true
  | item :: items' =>
      match has_items !! item with
      | None => Raise KeyError
      | Some b => if negb b then Ok false else check_loop has_items items'
      end
  end.

(** The statements of [is_valid_combo] after its guard. *)
Definition is_valid_combo_body (m : menu) (item_combo : list Z)
    (items : list string) : result bool :=
  let has_items := foldl (λ h item, <[item := false]> h) (∅ : gmap string bool) items in
  h ← mark_loop m item_combo (seq 0 (length item_combo)) has_items;
  check_loop h items.

Definition is_valid_combo (m : menu) (item_combo : list Z)
    (items : list string) : result bool :=
  _ ← length_guard m item_combo;
  is_valid_combo_body m item_combo items.

(** ** get_min_cost *)

(** The loop over [item_combos], with [min_price] as its state. *)
Fixpoint min_loop `{FloatOfStr} (m : menu) (items : list string)
    (item_combos : list (list Z)) (min_price : float) : result float :=
  match item_combos with
  | [] => Ok min_price
  | item_combo :: rest =>
      valid ← is_valid_combo m item_combo items;
      if valid : bool then
        combo_price ← get_price m item_combo;
        if (combo_price <? min_price)%float
        then min_loop m items rest combo_price
        else min_loop m items rest min_price
      else min_loop m items rest min_price
  end.

Definition get_min_cost `{FloatOfStr} (m : menu) (items : list string) : result pyval :=
  if decide (length m = 0%nat) then Ok VNone
  else if decide (length m = 1%nat) then
    row ← index m 0;
    cost ← index row 0;
    Ok (VStr cost)
  else
    min_price ← min_loop m items (get_item_combos (length m)) infinity;
    Ok (VFloat min_price).

(** ** main *)

(** The tracking variables [min_cost] and [min_restaurant]. *)
Record best := Best {
  min_cost : pyval;
  min_restaurant : option string;
}.

#[global] Instance best_eq_dec : EqDecision best.
Proof. solve_decision. Defined.

(** [min_cost = float('inf')], [min_restaurant = None]. *)
Definition best_init : best := Best (VFloat infinity) None.

(** The block that [main] runs when the restaurant changes and once
    more after the last line:
    [if (len(menu) > 0): reduced_menu = reduce_menu(menu, items) ...]. *)
Definition check_restaurant `{FloatOfStr} (items : list string)
    (curr_restaurant : option string) (m : menu) (b : best) : result best :=
  if decide (0 < length m)%nat then
    match reduce_menu m items with
    | None => Ok b
    | Some reduced_menu =>
        curr_min_cost ← get_min_cost reduced_menu items;
        if decide (curr_min_cost ≠ VNone) then
          c ← py_float curr_min_cost;
          old ← py_float (min_cost b);
          if (c <? old)%float
          then Ok (Best curr_min_cost curr_restaurant)
          else Ok b
        else Ok b
    end
  else Ok b.

(** The state of the loop over the lines of the file. *)
Record loop_state := LoopState {
  ls_best : best;
  curr_restaurant : option string;
  ls_menu : list (list string);
}.

(** A formatted line: [line[0]] and [line[1:]] ([split] always returns
    at least one field). *)
Abbreviation row := (string * list string)%type (only parsing).

Definition line_step `{FloatOfStr} (items : list string)
    (st : loop_state) (line : row) : result loop_state :=
  if decide (curr_restaurant st ≠ Some line.1) then
    b ← check_restaurant items (curr_restaurant st) (ls_menu st) (ls_best st);
    Ok (LoopState b (Some line.1) [line.2])
  else Ok (LoopState (ls_best st) (curr_restaurant st) (ls_menu st ++ [line.2])).

Fixpoint line_loop `{FloatOfStr} (items : list string)
    (st : loop_state) (lines : list row) : result loop_state :=
  match lines with
  | [] => Ok st
  | line :: lines' =>
      st' ← line_step items st line;
      line_loop items st' lines'
  end.

(** The [for] loop of [main] and the check after it, for the last
    restaurant. *)
Definition check_lines `{FloatOfStr} (lines : list row) (items : list string)
  : result best :=
  st ← line_loop items (LoopState best_init None []) lines;
  check_restaurant items (curr_restaurant st) (ls_menu st) (ls_best st).

(** What [main] prints once the file is open: the complaint about an
    empty list of items, or the result, [None] when [min_restaurant] is
    [None] and the restaurant with its cost otherwise. *)
Inductive printed : Type :=
| NoItemsProvided
| Printed (b : best).

(** [main], given the formatted lines of the file and [sys.argv[2:]]. *)
Definition main `{FloatOfStr} (lines : list row) (items : list string)
  : result printed :=
  if decide (length items = 0%nat) then Ok NoItemsProvided
  else
    b ← check_lines lines items;
    Ok (Printed b).

(** ** main, from the lines as the file yields them *)

(** [s.strip(chars)] and [s.strip()]: the characters that [p] accepts
    are taken off both ends. *)
Fixpoint lstrip (p : Ascii.ascii → bool) (s : string) : string :=
  match s with
  | EmptyString => EmptyString
  | String a s' => if p a then lstrip p s' else s
  end.

Fixpoint rstrip (p : Ascii.ascii → bool) (s : string) : string :=
  match s with
  | EmptyString => EmptyString
  | String a s' =>
      match rstrip p s' with
      | EmptyString => if p a then EmptyString else String a EmptyString
      | r => String a r
      end
  end.

Definition strip (p : Ascii.ascii → bool) (s : string) : string :=
  rstrip p (lstrip p s).

(** [s.split(sep)] for a separator of one character: the fields between
    the separators, empty ones included. *)
Fixpoint split (sep : Ascii.ascii) (s : string) : list string :=
  match s with
  | EmptyString => [EmptyString]
  | String a s' =>
      if decide (a = sep) then EmptyString :: split sep s'
      else
        match split sep s' with
        | f :: fs => String a f :: fs
        | [] => [String a EmptyString]
        end
  end.

Definition comma : Ascii.ascii := Ascii.ascii_of_N 44.

(** The characters of ['\r\n']. *)
Definition is_newline (a : Ascii.ascii) : bool :=
  bool_decide (Ascii.N_of_ascii a = 13%N ∨ Ascii.N_of_ascii a = 10%N).

(** The characters that [strip()] takes off a [str] of Python 2: space,
    tab, line feed, vertical tab, form feed and carriage return. *)
Definition is_space (a : Ascii.ascii) : bool :=
  bool_decide (Ascii.N_of_ascii a = 32%N ∨
               (9 ≤ Ascii.N_of_ascii a ∧ Ascii.N_of_ascii a ≤ 13)%N).

(** [line = line.strip('\r\n').split(',')] and
    [line = [x.strip() for x in line]]. *)
Definition format_line (line : string) : list string :=
  strip is_space <$> split comma (strip is_newline line).

(** The body of the [for] loop, with [line[0]] and [line[1:]] read from
    the formatted line. *)
Definition raw_line_step `{FloatOfStr} (items : list string)
    (st : loop_state) (raw : string) : result loop_state :=
  let line := format_line raw in
  name ← index line 0;
  if decide (curr_restaurant st ≠ Some name) then
    b ← check_restaurant items (curr_restaurant st) (ls_menu st) (ls_best st);
    name' ← index line 0;
    Ok (LoopState b (Some name') [drop 1 line])
  else Ok (LoopState (ls_best st) (curr_restaurant st) (ls_menu st ++ [drop 1 line])).

Fixpoint raw_line_loop `{FloatOfStr} (items : list string)
    (st : loop_state) (raws : list string) : result loop_state :=
  match raws with
  | [] => Ok st
  | raw :: raws' =>
      st' ← raw_line_step items st raw;
      raw_line_loop items st' raws'
  end.

(** [main], given the lines that the open file yields and
    [sys.argv[2:]]. *)
Definition main_of_file `{FloatOfStr} (raws : list string) (items : list string)
  : result printed :=
  if decide (length items = 0%nat) then Ok NoItemsProvided
  else
    st ← raw_line_loop items (LoopState best_init None []) raws;
    b ← check_restaurant items (curr_restaurant st) (ls_menu st) (ls_best st);
    Ok (Printed b).

(** ** main, from the command line *)

(** What a run of [main] ends with when it raises nothing: the complaint
    about the input file, or what it prints once the file is open. *)
Inductive outcome : Type :=
| CouldNotOpen (name : string)
| Ran (p : printed).

(** [main] as a whole, given [sys.argv] and, for each file name, the
    lines the file yields when [open] succeeds ([None] when [open]
    raises).  An exception in the [try] block, the [IndexError] of a
    missing [sys.argv[1]] included, leads to the [except] branch, which
    reads [sys.argv[1]] again for its message. *)
Definition main_argv `{FloatOfStr} (open_file : string → option (list string))
    (argv : list string) : result outcome :=
  match match argv !! 1%nat with
        | Some name => open_file name
        | None => None
        end with
  | Some raws =>
      p ← main_of_file raws (drop 2 argv);
      Ok (Ran p)
  | None =>
      name ← index argv 1;
      Ok (CouldNotOpen name)
  end.

(** ** A parser of decimal numerals for [float(s)]

    A stand-in for the builtin on the numerals that menu files use:
    digits with an optional fraction, at least one digit, fewer than
    2^53 as an integer and at most 22 digits after the point.  On these
    the quotient below is the float nearest to the numeral, which is what
    [float] returns.  Every other string is turned down, also those that
    [float] reads (signs, exponents, blanks, [inf], [nan]); the functions
    are run with it on such numerals only. *)

Definition digit_of (a : Ascii.ascii) : option Z :=
  let n := Z.of_N (Ascii.N_of_ascii a) in
  if decide (48 ≤ n ≤ 57) then Some (n - 48) else None.

(** Reads digits into [(mantissa, number of digits after the point,
    number of digits)]. *)
Fixpoint read_digits (s : string) (seen_point : bool) (mant frac digits : Z)
  : option (Z * Z * Z) :=
  match s with
  | EmptyString => Some (mant, frac, digits)
  | String a s' =>
      if decide (Ascii.N_of_ascii a = 46%N) then
        if seen_point then None else read_digits s' true mant frac digits
      else
        match digit_of a with
        | Some d => read_digits s' seen_point (10 * mant + d)
                      (if seen_point then frac + 1 else frac) (digits + 1)
        | None => None
        end
  end.

Definition decimal_float_of_str : FloatOfStr := λ s,
  match read_digits s false 0 0 0 with
  | Some (mant, frac, digits) =>
      if decide (0 < digits ∧ mant < 2 ^ 53 ∧ frac ≤ 22)
      then Some (round_int mant / round_int (10 ^ frac))%float
      else None
  | None => None
  end.

(** ** Vocabulary of the statements *)

(** The combos the loop of [reduce_menu] keeps. *)
Definition shares_item (items : list string) (c : list string) : Prop :=
  (0 < common (drop 1 c) items)%nat.

#[global] Instance shares_item_dec items c : Decision (shares_item items c).
Proof. unfold shares_item. apply _. Defined.

(** The positions an item combination selects, in increasing order. *)
Definition chosen (v : list Z) : list nat :=
  filter (λ i, v !! i = Some 1) (seq 0 (length v)).

(** The strict lexicographic order of index tuples. *)
Fixpoint lex_lt (a b : list nat) : Prop :=
  match a, b with
  | _, [] => False
  | [], _ :: _ => True
  | x :: a', y :: b' => (x < y)%nat ∨ (x = y ∧ lex_lt a' b')
  end.

#[global] Instance lex_lt_dec a b : Decision (lex_lt a b).
Proof.
  revert b. induction a as [|x a IH]; intros [|y b]; simpl; apply _.
Defined.

(** The order of the enumeration: fewer selected positions first, and
    among as many, the lexicographically smaller index tuple first. *)
Definition combo_lt (u v : list Z) : Prop :=
  (length (chosen u) < length (chosen v))%nat ∨
  (length (chosen u) = length (chosen v) ∧ lex_lt (chosen u) (chosen v)).

#[global] Instance combo_lt_dec u v : Decision (combo_lt u v).
Proof. unfold combo_lt. apply _. Defined.

(** An item combination over [n] combos: [n] flags, each 0 or 1. *)
Definition selection (n : nat) (v : list Z) : Prop :=
  length v = n ∧ Forall (λ b, b = 0 ∨ b = 1) v.

#[global] Instance selection_dec n v : Decision (selection n v).
Proof. unfold selection. apply _. Defined.

(** The restaurants of the file, as the loop of [main] delimits them:
    the maximal runs of consecutive lines with one name, each with the
    menu its lines make. *)
Definition add_line (v : string) (m : list (list string))
    (gs : list (string * list (list string))) : list (string * list (list string)) :=
  match gs with
  | (v', m') :: gs' => if decide (v = v') then (v, m ++ m') :: gs' else (v, m) :: gs
  | [] => [(v, m)]
  end.

Fixpoint restaurants (lines : list (string * list string))
  : list (string * list (list string)) :=
  match lines with
  | [] => []
  | line :: lines' => add_line line.1 [line.2] (restaurants lines')
  end.

(** The checks of [main], one restaurant after the other. *)
Fixpoint check_all `{FloatOfStr} (items : list string)
    (gs : list (string * list (list string))) (b : best) : result best :=
  match gs with
  | [] => Ok b
  | g :: gs' =>
      b' ← check_restaurant items (Some g.1) g.2 b;
      check_all items gs' b'
  end.

(** The menu [m] serves the request: [reduce_menu] keeps a menu, for
    which [get_min_cost] returns the cost [c], and [float(c)] is [f]. *)
Definition has_cost `{FloatOfStr} (items : list string) (m : list (list string))
    (c : pyval) (f : float) : Prop :=
  ∃ r, reduce_menu m items = Some r ∧ get_min_cost r items = Ok c ∧
       c ≠ VNone ∧ py_float c = Ok f.

(** The order of IEEE 754 numbers by a key: the sign class, then the
    exponent, then the mantissa. *)
Definition sf_key (x : spec_float) : Z * Z * Z :=
  match x with
  | S754_infinity true => (-2, 0, 0)
  | S754_finite true m e => (-1, - e, - Z.pos m)
  | S754_zero _ => (0, 0, 0)
  | S754_nan => (0, 0, 0)
  | S754_finite false m e => (1, e, Z.pos m)
  | S754_infinity false => (2, 0, 0)
  end.

Definition key_lt (a b : Z * Z * Z) : Prop :=
  a.1.1 < b.1.1 ∨ (a.1.1 = b.1.1 ∧ (a.1.2 < b.1.2 ∨ (a.1.2 = b.1.2 ∧ a.2 < b.2))).

(** What [main] ends with, over the restaurants [gs] in the order of the
    file: no restaurant costs less than the kept cost; and the kept
    restaurant, if there is one, has that cost and comes before every
    other restaurant that costs as little (each earlier one whose cost is
    a number costs strictly more). *)
Definition first_cheapest `{FloatOfStr} (items : list string)
    (gs : list (string * list (list string))) (b : best) : Prop :=
  ∃ fb, py_float (min_cost b) = Ok fb ∧
    (∀ j g c f, gs !! j = Some g → has_cost items g.2 c f →
                (f <? fb)%float = false) ∧
    match min_restaurant b with
    | None => b = best_init
    | Some v =>
        ∃ i m, gs !! i = Some (v, m) ∧ has_cost items m (min_cost b) fb ∧
          ∀ j g c f, (j < i)%nat → gs !! j = Some g → has_cost items g.2 c f →
                     is_nan f = false → (fb <? f)%float = true
    end.

(** The item combination [item_combo] covers the request: every
    requested item is sold by a combo whose flag is set. *)
Definition covers (m : list (list string)) (item_combo : list Z)
    (items : list string) : Prop :=
  ∀ it, it ∈ items →
    ∃ x flag c, item_combo !! x = Some flag ∧ 0 < flag ∧
                m !! x = Some c ∧ it ∈ drop 1 c.

(** The items of the combos at the positions [xs] whose flag is set. *)
Definition selected_items (m : list (list string)) (item_combo : list Z)
    (xs : list nat) : list string :=
  mjoin ((λ x, match item_combo !! x, m !! x with
               | Some flag, Some c => if decide (0 < flag) then drop 1 c else []
               | _, _ => []
               end) <$> xs).

(** The cost field of a combo reads as the float [f]. *)
Definition cost_is `{FloatOfStr} (c : list string) (f : float) : Prop :=
  ∃ cost, c !! 0%nat = Some cost ∧ float_of_str cost = Some f.

(** Every flag greater than 0 stands at a position of the menu. *)
Definition flags_in_menu (m : list (list string)) (item_combo : list Z) : Prop :=
  ∀ x flag, item_combo !! x = Some flag → 0 < flag → (x < length m)%nat.

(** The kept cost reads as a float, infinity before any restaurant is
    kept and below infinity once one is. *)
Definition kept_cost_ok `{FloatOfStr} (b : best) : Prop :=
  ∃ fb, py_float (min_cost b) = Ok fb ∧
        match min_restaurant b with
        | None => b = best_init
        | Some _ => (fb <? infinity)%float = true
        end.

(** The name and the fields of a line of the file. *)
Definition parse_row (raw : string) : string * list string :=
  match format_line raw with
  | name :: fields => (name, fields)
  | [] => (EmptyString, [])
  end.

(** The characters of a string. *)
Fixpoint chars (s : string) : list Ascii.ascii :=
  match s with
  | EmptyString => []
  | String a s' => a :: chars s'
  end.

(** * Properties *)

(** ** Sets of strings *)

Section sets.
Implicit Types a b l : list string.

Lemma common_pos a b :
  (0 < common a b)%nat ↔ ∃ x, x ∈ a ∧ x ∈ b.
Proof.
  unfold common. split.
  - intros Hpos.
    destruct (set_choose_L (list_to_set a ∩ list_to_set b : gset string)) as [x Hx].
    + intros Hempty. rewrite Hempty, size_empty in Hpos. lia.
    + exists x. set_solver.
  - intros (x & Ha & Hb).
    destruct (size _) eqn:Hsize; [|lia].
    apply size_empty_inv in Hsize. set_solver.
Qed.

Lemma size_cons_le x (X : gset string) :
  (size ({[x]} ∪ X) ≤ S (size X))%nat.
Proof.
  rewrite size_union_alt, size_singleton.
  assert (X ∖ {[x]} ⊆ X) as Hsub by set_solver.
  apply subseteq_size in Hsub. lia.
Qed.

Lemma size_list_to_set_le l :
  (size (list_to_set l : gset string) ≤ length l)%nat.
Proof.
  induction l as [|x l IH].
  - by rewrite list_to_set_nil, size_empty.
  - rewrite list_to_set_cons. simpl. pose proof (size_cons_le x (list_to_set l)). lia.
Qed.

Lemma size_list_to_set_dup l :
  ¬ NoDup l → (size (list_to_set l : gset string) < length l)%nat.
Proof.
  induction l as [|x l IH]; intros Hdup.
  - destruct Hdup. constructor.
  - rewrite list_to_set_cons. simpl. destruct (decide (x ∈ l)) as [Hin|Hnin].
    + replace ({[x]} ∪ list_to_set l : gset string) with (list_to_set l : gset string)
        by set_solver.
      pose proof (size_list_to_set_le l). lia.
    + assert (¬ NoDup l) as Hl by (intros ?; apply Hdup; by constructor).
      specialize (IH Hl).
      pose proof (size_cons_le x (list_to_set l)). lia.
Qed.

Lemma common_le_set a b :
  (common a b ≤ size (list_to_set b : gset string))%nat.
Proof. unfold common. apply subseteq_size. set_solver. Qed.

Lemma common_full a b :
  NoDup b → common a b = length b ↔ ∀ x, x ∈ b → x ∈ a.
Proof.
  intros Hnd. unfold common. rewrite <- (size_list_to_set (C := gset string) b Hnd).
  split.
  - intros Hsize x Hx.
    assert (list_to_set a ∩ list_to_set b = (list_to_set b : gset string)) as Heq.
    { apply (set_subseteq_size_eq (C := gset string)); [set_solver | lia]. }
    set_solver.
  - intros Hall. f_equal. set_solver.
Qed.
End sets.

(** ** reduce_menu *)

Lemma reduce_loop_spec items (m r : list (list string)) (f : list string) :
  foldl (reduce_step items) (r, f) m =
    (r ++ filter (shares_item items) m,
     f ++ mjoin (drop 1 <$> filter (shares_item items) m)).
Proof.
  revert r f. induction m as [|c m IH]; intros r f; simpl.
  - by rewrite !app_nil_r.
  - unfold reduce_step at 2. unfold filter at 1 2; simpl.
    fold (filter (shares_item items) m).
    unfold shares_item at 1 2.
    destruct (decide _); simpl.
    + rewrite IH. by rewrite <- !app_assoc.
    + by rewrite IH.
Qed.

Lemma reduce_menu_unfold m items :
  reduce_menu m items =
    let r := filter (shares_item items) m in
    if decide (common (mjoin (drop 1 <$> r)) items ≠ length items)
    then None else Some r.
Proof. unfold reduce_menu. by rewrite reduce_loop_spec. Qed.

(** An item is sold by a kept combo exactly when a combo of the menu
    sells it, as long as it is a requested item. *)
Lemma kept_item items (m : list (list string)) it :
  it ∈ items →
  it ∈ mjoin (drop 1 <$> filter (shares_item items) m) ↔
  ∃ c, c ∈ m ∧ it ∈ drop 1 c.
Proof.
  intros Hit. rewrite list_elem_of_join. split.
  - intros (l & Hl & Hin). apply list_elem_of_fmap in Hin as (c & -> & Hc).
    apply list_elem_of_filter in Hc as [_ Hc]. eauto.
  - intros (c & Hc & Hin). exists (drop 1 c). split; [done|].
    apply list_elem_of_fmap. exists c. split; [done|].
    apply list_elem_of_filter. split; [|done].
    apply common_pos. eauto.
Qed.

(** C2: for a request of distinct items, [reduce_menu] returns [None]
    exactly when some requested item is sold by no combo of the menu
    (the items of a combo are [combo[1:]]); and when it returns a reduced
    menu, every requested item is sold by a combo of that reduced menu.
    The request need not be non-empty for this to hold. *)
Theorem reduce_menu_feasible (m : list (list string)) (items : list string) :
  NoDup items →
  (reduce_menu m items = None ↔
     ∃ it, it ∈ items ∧ ∀ c, c ∈ m → it ∉ drop 1 c) ∧
  (∀ r, reduce_menu m items = Some r →
     ∀ it, it ∈ items → ∃ c, c ∈ r ∧ it ∈ drop 1 c).
Proof.
  intros Hnd. rewrite reduce_menu_unfold. cbv zeta.
  pose proof (common_full (mjoin (drop 1 <$> filter (shares_item items) m)) items Hnd)
    as Hfull.
  split.
  - split.
    + intros Hnone. destruct (decide _) as [Hne|]; [|done].
      assert (¬ Forall (λ it, Exists (λ c, it ∈ drop 1 c) m) items) as Hnot.
      { intros Hall. apply Hne, Hfull. intros x Hx.
        apply kept_item; [done|].
        apply (proj1 (Forall_forall _ _) Hall), Exists_exists in Hx. done. }
      apply not_Forall_Exists in Hnot; [|apply _].
      apply Exists_exists in Hnot as (it & Hit & Hno). exists it. split; [done|].
      intros c Hc Hin. apply Hno, Exists_exists. eauto.
    + intros (it & Hit & Hno). destruct (decide _) as [|He]; [done|]. exfalso.
      apply dec_stable in He. pose proof (proj1 Hfull He it Hit) as Hin.
      apply kept_item in Hin as (c & Hc & Hin); [|done]. by apply (Hno c).
  - intros r Hr it Hit. destruct (decide _) as [|He]; [done|].
    injection Hr as <-. apply dec_stable in He.
    pose proof (proj1 Hfull He it Hit) as Hin.
    apply list_elem_of_join in Hin as (l & Hl & Hin).
    apply list_elem_of_fmap in Hin as (c & -> & Hc). eauto.
Qed.

Lemma reduce_menu_feasible_witness :
  let m := [["5"; "coffee"]; ["3"; "apples"]; ["2"; "tea"]] in
  let items := ["coffee"; "apples"] in
  (reduce_menu m items = None ↔
     ∃ it, it ∈ items ∧ ∀ c, c ∈ m → it ∉ drop 1 c) ∧
  (∀ r, reduce_menu m items = Some r →
     ∀ it, it ∈ items → ∃ c, c ∈ r ∧ it ∈ drop 1 c).
Proof.
  apply (reduce_menu_feasible [["5"; "coffee"]; ["3"; "apples"]; ["2"; "tea"]]
           ["coffee"; "apples"]).
  apply (bool_decide_unpack _). vm_compute. exact I.
Defined.

(** ** A request that names an item twice *)

Lemma reduce_menu_dup (m : list (list string)) (items : list string) :
  ¬ NoDup items → reduce_menu m items = None.
Proof.
  intros Hdup. unfold reduce_menu. cbv zeta.
  destruct (decide _) as [|He]; [done|]. exfalso. apply dec_stable in He.
  pose proof (common_le_set (foldl (reduce_step items) ([], []) m).2 items).
  pose proof (size_list_to_set_dup items Hdup). lia.
Qed.

Section main_dup.
Context `{FloatOfStr}.
Variable items : list string.
Hypothesis Hdup : ¬ NoDup items.

Lemma check_restaurant_dup cr (m : list (list string)) b :
  check_restaurant items cr m b = Ok b.
Proof.
  unfold check_restaurant. destruct (decide _); [|done].
  by rewrite reduce_menu_dup.
Qed.

Lemma line_loop_dup lines st :
  ∃ st', line_loop items st lines = Ok st' ∧ ls_best st' = ls_best st.
Proof.
  revert st. induction lines as [|line lines IH]; intros st; simpl.
  - eauto.
  - unfold line_step. destruct (decide _).
    + rewrite check_restaurant_dup. simpl. exact (IH _).
    + simpl. exact (IH _).
Qed.

Lemma check_lines_dup lines : check_lines lines items = Ok best_init.
Proof.
  unfold check_lines.
  destruct (line_loop_dup lines (LoopState best_init None [])) as (st & -> & Hb).
  simpl. rewrite check_restaurant_dup. by rewrite Hb.
Qed.

Lemma main_dup lines : main lines items = Ok (Printed best_init).
Proof.
  unfold main. rewrite decide_False.
  - by rewrite check_lines_dup.
  - intros Hnil. apply Hdup. destruct items; [constructor|done].
Qed.
End main_dup.

(** C10: the feasibility test of [reduce_menu] compares the number of
    distinct requested items sold by the kept combos with [len(items)],
    which counts repetitions.  So a request that names an item twice
    makes [reduce_menu] return [None] for every menu; and [main], which
    hands [sys.argv[2:]] over as it is, then ends with no restaurant
    and prints [None] ([min_restaurant] is still [None]) whatever the
    file holds. *)
Theorem reduce_menu_duplicate_request `{FloatOfStr}
    (m : list (list string)) (items : list string) :
  ¬ NoDup items →
  (common (foldl (reduce_step items) ([], []) m).2 items < length items)%nat ∧
  reduce_menu m items = None ∧
  ∀ lines, main lines items = Ok (Printed best_init).
Proof.
  intros Hdup. split; [|split].
  - pose proof (common_le_set (foldl (reduce_step items) ([], []) m).2 items).
    pose proof (size_list_to_set_dup items Hdup). lia.
  - by apply reduce_menu_dup.
  - intros lines. by apply main_dup.
Qed.

Lemma reduce_menu_duplicate_request_witness :
  let m := [["7"; "coffee"; "apples"]] in
  let items := ["coffee"; "apples"; "coffee"] in
  (∀ it, it ∈ items → ∃ c, c ∈ m ∧ it ∈ drop 1 c) ∧
  (common (foldl (reduce_step items) ([], []) m).2 items < length items)%nat ∧
  reduce_menu m items = None ∧
  ∀ lines, @main decimal_float_of_str lines items = Ok (Printed best_init).
Proof.
  split.
  - intros it Hit. exists ["7"; "coffee"; "apples"]. set_solver.
  - apply (@reduce_menu_duplicate_request decimal_float_of_str
             [["7"; "coffee"; "apples"]] ["coffee"; "apples"; "coffee"]).
    apply (bool_decide_unpack _). vm_compute. exact I.
Defined.

(** ** The statements after the guard

    What [is_valid_combo] and [get_price] compute once the guard is
    passed: the rest of each function is as its header comment says. *)

Section after_guard.
Implicit Types h : gmap string bool.
Implicit Types m : list (list string).

Lemma mark_all_lookup (v : bool) (l : list string) h k :
  foldl (λ h it, <[it := v]> h) h l !! k =
    if decide (k ∈ l) then Some v else h !! k.
Proof.
  revert h. induction l as [|a l IH]; intros h; cbn [foldl].
  - by rewrite decide_False by apply not_elem_of_nil.
  - rewrite IH. destruct (decide (k ∈ l)) as [Hk|Hk].
    + rewrite decide_True; [done|by right].
    + destruct (decide (k = a)) as [->|Hne].
      * rewrite lookup_insert_eq. rewrite decide_True; [done|left].
      * rewrite lookup_insert_ne by done.
        rewrite decide_False; [done|]. by intros [?|?]%elem_of_cons.
Qed.

Lemma mark_row_spec (row : list string) (a len : nat) h :
  (a + len ≤ length row - 1)%nat →
  mark_row row (seq a len) h =
    Ok (foldl (λ h it, <[it := true]> h) h (take len (drop (S a) row))).
Proof.
  revert a h. induction len as [|len IH]; intros a h Hlen; [done|].
  cbn [seq mark_row]. unfold index.
  destruct (lookup_lt_is_Some_2 row (a + 1)) as [it Hit]; [lia|].
  rewrite Hit. simpl. rewrite IH by lia.
  rewrite Nat.add_1_r in Hit. by rewrite (drop_S _ _ _ Hit).
Qed.

Lemma mark_row_all (row : list string) h :
  mark_row row (seq 0 (length row - 1)) h =
    Ok (foldl (λ h it, <[it := true]> h) h (drop 1 row)).
Proof.
  rewrite mark_row_spec by lia. rewrite take_ge; [done|]. by rewrite length_drop.
Qed.

Lemma mark_loop_spec m (item_combo : list Z) (xs : list nat) h :
  (∀ x, x ∈ xs → (x < length item_combo)%nat ∧ (x < length m)%nat) →
  mark_loop m item_combo xs h =
    Ok (foldl (λ h it, <[it := true]> h) h (selected_items m item_combo xs)).
Proof.
  unfold selected_items.
  revert h. induction xs as [|x xs IH]; intros h Hxs; [done|].
  destruct (Hxs x ltac:(left)) as [Hc Hm].
  destruct (lookup_lt_is_Some_2 _ _ Hc) as [flag Hflag].
  destruct (lookup_lt_is_Some_2 _ _ Hm) as [row Hrow].
  cbn [mark_loop]. csimpl. unfold index. rewrite Hflag, Hrow. simpl.
  rewrite foldl_app. case_decide.
  - rewrite mark_row_all. simpl. apply IH. intros x' Hx'. apply Hxs. by right.
  - simpl. apply IH. intros x' Hx'. apply Hxs. by right.
Qed.

Lemma check_loop_spec h (items : list string) :
  (∀ it, it ∈ items → is_Some (h !! it)) →
  ∃ b, check_loop h items = Ok b ∧
       (b = true ↔ ∀ it, it ∈ items → h !! it = Some true).
Proof.
  induction items as [|a items IH]; intros Hkeys; simpl.
  - exists true. split; [done|]. split; [|done]. intros _ it Hit.
    by apply elem_of_nil in Hit.
  - destruct (Hkeys a ltac:(left)) as [[|] Ha]; rewrite Ha; simpl.
    + destruct IH as (b & -> & Hb); [intros it Hit; apply Hkeys; by right|].
      exists b. split; [done|]. rewrite Hb. split.
      * intros Hall it [->|Hit]%elem_of_cons; [done|by apply Hall].
      * intros Hall it Hit. apply Hall. by right.
    + exists false. split; [done|]. split; [done|]. intros Hall.
      specialize (Hall a ltac:(left)). congruence.
Qed.

Lemma elem_of_selected_items m (item_combo : list Z) (xs : list nat) it :
  it ∈ selected_items m item_combo xs ↔
  ∃ x flag c, x ∈ xs ∧ item_combo !! x = Some flag ∧ 0 < flag ∧
              m !! x = Some c ∧ it ∈ drop 1 c.
Proof.
  unfold selected_items. rewrite list_elem_of_join. split.
  - intros (l & Hit & (x & -> & Hx)%list_elem_of_fmap).
    destruct (item_combo !! x) as [flag|] eqn:Hflag; [|by apply elem_of_nil in Hit].
    destruct (m !! x) as [c|] eqn:Hc; [|by apply elem_of_nil in Hit].
    case_decide; [|by apply elem_of_nil in Hit]. by exists x, flag, c.
  - intros (x & flag & c & Hx & Hflag & Hpos & Hc & Hit).
    exists (drop 1 c). split; [done|]. apply list_elem_of_fmap. exists x.
    split; [|done]. by rewrite Hflag, Hc, decide_True.
Qed.

(** After the guard, [is_valid_combo] returns whether the item
    combination covers the request. *)
Lemma is_valid_combo_body_covers m (item_combo : list Z) (items : list string) :
  length m = length item_combo →
  ∃ b, is_valid_combo_body m item_combo items = Ok b ∧
       (b = true ↔ covers m item_combo items).
Proof.
  intros Hlen. unfold is_valid_combo_body. cbv zeta.
  rewrite mark_loop_spec; [|intros x Hx%elem_of_seq; lia]. simpl.
  set (h := foldl _ _ (selected_items _ _ _)).
  assert (∀ it, it ∈ items →
            h !! it = if decide (it ∈ selected_items m item_combo
                                         (seq 0 (length item_combo)))
                      then Some true else Some false) as Hh.
  { intros it Hit. unfold h. rewrite !mark_all_lookup.
    by rewrite (decide_True (P := it ∈ items)). }
  destruct (check_loop_spec h items) as (b & Hb & Hiff).
  { intros it Hit. rewrite Hh by done. by case_decide. }
  exists b. split; [done|]. rewrite Hiff. unfold covers. split.
  - intros Hall it Hit. specialize (Hall it Hit). rewrite Hh in Hall by done.
    case_decide as Hsel; [|done].
    apply elem_of_selected_items in Hsel as (x & flag & c & _ & ?). by exists x, flag, c.
  - intros Hall it Hit. rewrite Hh by done. rewrite decide_True; [done|].
    destruct (Hall it Hit) as (x & flag & c & Hflag & Hrest).
    apply elem_of_selected_items. exists x, flag, c. split; [|done].
    apply elem_of_seq. apply lookup_lt_Some in Hflag. lia.
Qed.
End after_guard.

(** ** The length guard *)

Lemma length_guard_raises {A B} (m : list A) (item_combo : list B) :
  length_guard m item_combo = Raise AttributeError.
Proof. reflexivity. Qed.

Lemma get_price_raises `{FloatOfStr} (m : list (list string)) (item_combo : list Z) :
  get_price m item_combo = Raise AttributeError.
Proof. reflexivity. Qed.

Lemma is_valid_combo_raises (m : list (list string)) (item_combo : list Z)
    (items : list string) :
  is_valid_combo m item_combo items = Raise AttributeError.
Proof. reflexivity. Qed.

(** C3: the guard [if (menu.length != item_combo.length): raise] reads an
    attribute that lists do not have, so both functions raise
    [AttributeError] at the guard for every menu and every item
    combination, those of equal length included: a menu of one combo
    with an item combination of one flag is such an input. *)
Theorem length_guard_always_raises :
  (∀ (P : FloatOfStr) (m : list (list string)) (item_combo : list Z),
     @get_price P m item_combo = Raise AttributeError) ∧
  (∀ (m : list (list string)) (item_combo : list Z) (items : list string),
     is_valid_combo m item_combo items = Raise AttributeError) ∧
  length [["5"; "coffee"]] = length [1] ∧
  @get_price decimal_float_of_str [["5"; "coffee"]] [1] = Raise AttributeError ∧
  is_valid_combo [["5"; "coffee"]] [1] ["coffee"] = Raise AttributeError.
Proof. by repeat split. Qed.

(** C4: [is_valid_combo] returns neither [True] nor [False].  For the
    menu of one combo that sells coffee, selected, and the request for
    coffee, the selection covers the request and the statements after
    the guard find so, but the function raises at the guard where the
    claim has it return [True]; and it raises on every other input. *)
Theorem is_valid_combo_never_returns :
  covers [["5"; "coffee"]] [1] ["coffee"] ∧
  is_valid_combo_body [["5"; "coffee"]] [1] ["coffee"] = Ok true ∧
  is_valid_combo [["5"; "coffee"]] [1] ["coffee"] = Raise AttributeError ∧
  ∀ (m : list (list string)) (item_combo : list Z) (items : list string) (b : bool),
    is_valid_combo m item_combo items ≠ Ok b.
Proof.
  split; [|split; [by vm_compute|split; [done|]]].
  - intros it ->%list_elem_of_singleton.
    exists 0%nat, 1, ["5"; "coffee"].
    split; [done|]. split; [lia|]. split; [done|]. simpl. set_solver.
  - intros m ic items b. by rewrite is_valid_combo_raises.
Qed.

(** C9: [get_price] returns no sum.  For two selected combos priced 5
    and 3 the loop after the guard adds up 8.0, but the function raises
    at the guard where the claim has it return 8.0; and it raises on
    every other menu and item combination. *)
Theorem get_price_never_returns :
  let m := [["5"; "coffee"]; ["3"; "apples"]] in
  @price_loop decimal_float_of_str m [1; 1] (seq 0 (length [1; 1])) 0%float
    = Ok 8%float ∧
  @get_price decimal_float_of_str m [1; 1] = Raise AttributeError ∧
  ∀ (P : FloatOfStr) (m' : list (list string)) (item_combo : list Z) (price : float),
    @get_price P m' item_combo ≠ Ok price.
Proof.
  split; [by vm_compute|split; [done|]].
  intros P m' ic p. by rewrite get_price_raises.
Qed.

(** ** get_min_cost on a menu of one combo *)

(** C8: on a menu of exactly one combo [get_min_cost] returns that
    combo's cost [menu[0][0]], for every request and whether or not the
    combo sells what is requested; in particular on every one-combo menu
    that [reduce_menu] returns, whose combo always has a cost field. *)
Theorem get_min_cost_single `{FloatOfStr} :
  (∀ (cost : string) (its items : list string),
     get_min_cost [cost :: its] items = Ok (VStr cost)) ∧
  (∀ (m : list (list string)) (items c : list string),
     reduce_menu m items = Some [c] →
     ∃ cost its, c = cost :: its ∧
       ∀ items', get_min_cost [c] items' = Ok (VStr cost)) ∧
  get_min_cost [["4"; "bananas"]] ["coffee"] = Ok (VStr "4").
Proof.
  split; [|split]; [done| |done].
  intros m items c Hr. rewrite reduce_menu_unfold in Hr. cbv zeta in Hr.
  destruct (decide _); [done|]. injection Hr as Hr.
  assert (c ∈ filter (shares_item items) m) as Hc by (rewrite Hr; set_solver).
  apply list_elem_of_filter in Hc as [Hc _].
  apply common_pos in Hc as (x & Hx & _).
  destruct c as [|cost its]; [by apply elem_of_nil in Hx|].
  by exists cost, its.
Qed.

(** ** itertools.combinations *)

Section combinations.
Local Open Scope nat_scope.
Context {A : Type}.
Implicit Types l c : list A.

Lemma combinations_0 l : combinations l 0 = [[]].
Proof. by destruct l. Qed.

Lemma combinations_cons x l r :
  combinations (x :: l) (S r) =
    (cons x <$> combinations l r) ++ combinations l (S r).
Proof. reflexivity. Qed.

(** The elements are the subsequences of the requested length. *)
Lemma elem_of_combinations l r c :
  c ∈ combinations l r ↔ c `sublist_of` l ∧ length c = r.
Proof.
  revert r c. induction l as [|x l IH]; intros [|r] c.
  - simpl. rewrite list_elem_of_singleton, sublist_nil_r.
    split; [by intros ->|by intros [-> _]].
  - simpl. rewrite elem_of_nil, sublist_nil_r. split; [done|]. by intros [-> ?].
  - rewrite combinations_0, list_elem_of_singleton. split.
    + intros ->. split; [apply sublist_nil_l|done].
    + intros [_ Hlen]. by destruct c.
  - rewrite combinations_cons, elem_of_app, list_elem_of_fmap, sublist_cons_r.
    setoid_rewrite IH. split.
    + intros [(c' & -> & Hsub & Hlen)|[Hsub Hlen]].
      * split; [right; eauto|]. simpl. by rewrite Hlen.
      * split; [by left|done].
    + intros [[Hsub|(c' & -> & Hsub)] Hlen].
      * by right.
      * left. exists c'. simpl in Hlen. split; [done|]. split; [done|lia].
Qed.

Lemma sum_list_with_shift (g : nat → nat) m :
  sum_list_with g (seq 0 (S m)) = g 0 + sum_list_with (λ r, g (S r)) (seq 0 m).
Proof.
  simpl. f_equal. rewrite <- fmap_S_seq.
  generalize (seq 0 m). intros ks. induction ks as [|k ks IH]; csimpl; [done|].
  by rewrite IH.
Qed.

Lemma sum_list_with_plus {B} (g h : B → nat) (ks : list B) :
  sum_list_with (λ r, g r + h r) ks = sum_list_with g ks + sum_list_with h ks.
Proof. induction ks as [|k ks IH]; simpl; [done|]. rewrite IH. lia. Qed.

Lemma sum_list_with_ext {B} (g h : B → nat) (ks : list B) :
  (∀ k, g k = h k) → sum_list_with g ks = sum_list_with h ks.
Proof. intros Heq. induction ks as [|k ks IH]; simpl; [done|]. by rewrite Heq, IH. Qed.

Lemma sum_list_with_zero {B} (g : B → nat) (ks : list B) :
  (∀ k, k ∈ ks → g k = 0) → sum_list_with g ks = 0.
Proof.
  induction ks as [|k ks IH]; intros Hz; simpl; [done|].
  rewrite Hz by left. rewrite IH; [done|]. intros k' ?. apply Hz. by right.
Qed.

(** Over all lengths there are as many combinations as subsets. *)
Lemma combinations_total l m :
  length l < m →
  sum_list_with (λ r, length (combinations l r)) (seq 0 m) = 2 ^ length l.
Proof.
  revert m. induction l as [|x l IH]; intros [|m] Hm; try (simpl in Hm; lia).
  - rewrite sum_list_with_shift. rewrite sum_list_with_zero; [done|].
    intros k _. done.
  - rewrite sum_list_with_shift, combinations_0.
    rewrite (sum_list_with_ext _ (λ r, length (combinations l r)
                                       + length (combinations l (S r))) (seq 0 m)).
    + rewrite sum_list_with_plus.
      simpl in Hm. rewrite (IH m) by lia.
      pose proof (IH (S m) ltac:(lia)) as HS.
      rewrite sum_list_with_shift, combinations_0 in HS.
      simpl length in *. rewrite Nat.pow_succ_r'. lia.
    + intros r. by rewrite combinations_cons, length_app, length_fmap.
Qed.
End combinations.

(** ** Index tuples and the vectors built from them *)

Section index_tuples.
Local Open Scope nat_scope.
Implicit Types bits a b : list nat.

Lemma lex_lt_irrefl a : ¬ lex_lt a a.
Proof. induction a as [|x a IH]; simpl; [tauto|]. intros [?|[_ ?]]; [lia|done]. Qed.

(** Over an increasing list, [combinations] lists the tuples of one
    length in increasing lexicographic order. *)
Lemma combinations_sorted (l : list nat) r :
  StronglySorted lt l → StronglySorted lex_lt (combinations l r).
Proof.
  intros Hl. revert r. induction Hl as [|x l Hl IH Hx]; intros [|r].
  - simpl. repeat constructor.
  - simpl. constructor.
  - rewrite combinations_0. repeat constructor.
  - rewrite combinations_cons. apply StronglySorted_app_2.
    + intros a b (a' & -> & _)%list_elem_of_fmap [Hsub Hlen]%elem_of_combinations.
      destruct b as [|y b]; [done|]. simpl. left.
      assert (y ∈ l) as Hy by (eapply elem_of_sublist; [left|done]).
      by apply (proj1 (Forall_forall _ _) Hx).
    + apply (StronglySorted_fmap _ lex_lt); [|apply IH].
      intros a b Hab. simpl. by right.
    + apply IH.
Qed.

Lemma StronglySorted_lt_seq j n : StronglySorted lt (seq j n).
Proof.
  revert j. induction n as [|n IH]; intros j; simpl; constructor; [apply IH|].
  apply Forall_forall. intros k Hk%elem_of_seq. lia.
Qed.

Lemma set_bits_loop_length bits (s : list Z) :
  length (foldl (λ s bit, <[bit := 1%Z]> s) s bits) = length s.
Proof.
  revert s. induction bits as [|b bits IH]; intros s; simpl; [done|].
  by rewrite IH, length_insert.
Qed.

Lemma set_bits_loop_lookup bits (s : list Z) i :
  foldl (λ s bit, <[bit := 1%Z]> s) s bits !! i =
    if decide (i ∈ bits ∧ i < length s) then Some 1%Z else s !! i.
Proof.
  revert s. induction bits as [|b bits IH]; intros s; cbn [foldl].
  - case_decide as Hd; [|done]. destruct Hd as [Hd _]. by apply elem_of_nil in Hd.
  - rewrite IH, length_insert, list_lookup_insert.
    repeat case_decide; try done; exfalso; set_solver.
Qed.

Lemma length_set_bits n bits : length (set_bits n bits) = n.
Proof. unfold set_bits. by rewrite set_bits_loop_length, length_replicate. Qed.

Lemma set_bits_lookup n bits i :
  i < n → set_bits n bits !! i = Some (if decide (i ∈ bits) then 1%Z else 0%Z).
Proof.
  intros Hi. unfold set_bits.
  rewrite set_bits_loop_lookup, length_replicate, lookup_replicate_2 by done.
  repeat case_decide; try done; exfalso; naive_solver.
Qed.

Lemma selection_set_bits n bits : selection n (set_bits n bits).
Proof.
  split; [apply length_set_bits|]. apply Forall_lookup. intros i x Hx.
  assert (i < n) as Hi.
  { apply lookup_lt_Some in Hx. by rewrite length_set_bits in Hx. }
  rewrite set_bits_lookup in Hx by done. injection Hx as <-.
  case_decide; auto.
Qed.

Lemma filter_ext_in (P1 P2 : nat → Prop)
    `{!∀ x, Decision (P1 x), !∀ x, Decision (P2 x)} (l : list nat) :
  (∀ x, x ∈ l → P1 x ↔ P2 x) → filter P1 l = filter P2 l.
Proof.
  induction l as [|x l IH]; intros Hiff; [done|].
  assert (filter P1 l = filter P2 l) as Hl.
  { apply IH. intros y Hy. apply Hiff. by right. }
  destruct (decide (P1 x)) as [Hx|Hx].
  - rewrite !filter_cons_True; [by rewrite Hl| |done]. apply Hiff; [left|done].
  - rewrite !filter_cons_False; [done| |done]. intros Hx'. apply Hx, Hiff; [left|done].
Qed.

Lemma filter_sublist_id (l1 l2 : list nat) :
  l1 `sublist_of` l2 → NoDup l2 → filter (λ i, i ∈ l1) l2 = l1.
Proof.
  induction 1 as [|x l1 l2 Hsub IH|x l1 l2 Hsub IH]; intros Hnd.
  - done.
  - apply NoDup_cons in Hnd as [Hx Hnd].
    rewrite filter_cons_True by left. f_equal.
    etrans; [|by apply IH].
    apply filter_ext_in. intros y Hy. split; [|by right].
    intros [->|?]%elem_of_cons; done.
  - apply NoDup_cons in Hnd as [Hx Hnd].
    rewrite filter_cons_False; [by apply IH|].
    intros Hin. apply Hx. by eapply elem_of_sublist.
Qed.

(** Setting the bits of an increasing tuple of positions below [n] and
    reading the selected positions back gives the tuple. *)
Lemma chosen_set_bits n bits :
  bits `sublist_of` seq 0 n → chosen (set_bits n bits) = bits.
Proof.
  intros Hsub. unfold chosen. rewrite length_set_bits.
  etrans; [|exact (filter_sublist_id bits (seq 0 n) Hsub (NoDup_seq 0 n))].
  apply list_filter_iff. intros i. split.
  - intros Hi. pose proof (lookup_lt_Some _ _ _ Hi) as Hlt.
    rewrite length_set_bits in Hlt. rewrite set_bits_lookup in Hi by done.
    case_decide; [done|]. by injection Hi.
  - intros Hi. assert (i < n) as Hlt.
    { apply (elem_of_sublist _ _ _ Hi) in Hsub. apply elem_of_seq in Hsub. lia. }
    rewrite set_bits_lookup by done. by rewrite decide_True.
Qed.

Lemma chosen_sublist (v : list Z) : chosen v `sublist_of` seq 0 (length v).
Proof. apply sublist_filter. Qed.

Lemma elem_of_chosen (v : list Z) i : i ∈ chosen v ↔ v !! i = Some 1%Z.
Proof.
  unfold chosen. rewrite list_elem_of_filter, elem_of_seq. split; [by intros [? _]|].
  intros Hi. split; [done|]. apply lookup_lt_Some in Hi. lia.
Qed.

(** A vector of flags is rebuilt from the positions it selects. *)
Lemma set_bits_chosen n (v : list Z) :
  selection n v → set_bits n (chosen v) = v.
Proof.
  intros [Hlen Hflags]. apply list_eq. intros i.
  destruct (decide (i < n)) as [Hi|Hi].
  - rewrite set_bits_lookup by done.
    destruct (v !! i) as [b|] eqn:Hb.
    + pose proof (proj1 (Forall_lookup _ _) Hflags i b Hb) as [->| ->].
      * rewrite decide_False; [done|]. rewrite elem_of_chosen. congruence.
      * rewrite decide_True; [done|]. by rewrite elem_of_chosen.
    + apply lookup_ge_None in Hb. lia.
  - rewrite !(proj2 (lookup_ge_None _ _)); [done|lia|rewrite length_set_bits; lia].
Qed.
End index_tuples.

(** ** get_item_combos *)

Section get_item_combos.
Local Open Scope nat_scope.

Lemma append_loop {B C} (f : B → C) (l : list B) (r : list C) :
  foldl (λ result b, result ++ [f b]) r l = r ++ (f <$> l).
Proof.
  revert r. induction l as [|b l IH]; intros r; csimpl.
  - by rewrite app_nil_r.
  - by rewrite IH, <- app_assoc.
Qed.

Lemma get_item_combos_loop n ks (r : list (list Z)) :
  foldl (λ result k,
           foldl (λ result bits, result ++ [set_bits n bits])
                 result (combinations (seq 0 n) (k + 1))) r ks =
    r ++ mjoin ((λ k, set_bits n <$> combinations (seq 0 n) (S k)) <$> ks).
Proof.
  revert r. induction ks as [|k ks IH]; intros r; csimpl.
  - by rewrite app_nil_r.
  - by rewrite IH, append_loop, Nat.add_1_r, <- app_assoc.
Qed.

(** The two nested loops, as one list: for [k] from 0 to [n - 1], the
    vectors of the combinations of [k + 1] positions. *)
Lemma get_item_combos_flat n :
  get_item_combos n =
    mjoin ((λ k, set_bits n <$> combinations (seq 0 n) (S k)) <$> seq 0 n).
Proof. unfold get_item_combos. by rewrite get_item_combos_loop. Qed.

Lemma length_join_fmap {B C} (g : B → list C) (ks : list B) :
  length (mjoin (g <$> ks)) = sum_list_with (λ k, length (g k)) ks.
Proof.
  induction ks as [|k ks IH]; csimpl; [done|]. by rewrite length_app, IH.
Qed.

Lemma length_get_item_combos n : length (get_item_combos n) = 2 ^ n - 1.
Proof.
  rewrite get_item_combos_flat, length_join_fmap.
  pose proof (combinations_total (seq 0 n) (S n)) as Htotal.
  rewrite length_seq, sum_list_with_shift, combinations_0 in Htotal.
  specialize (Htotal ltac:(lia)). simpl length in Htotal.
  rewrite <- Htotal.
  rewrite (sum_list_with_ext _ (λ r, length (combinations (seq 0 n) (S r))) (seq 0 n)).
  - lia.
  - intros k. by rewrite length_fmap.
Qed.

Lemma elem_of_get_item_combos n (v : list Z) :
  v ∈ get_item_combos n ↔ selection n v ∧ 1 ≤ length (chosen v) ≤ n.
Proof.
  rewrite get_item_combos_flat, list_elem_of_join. split.
  - intros (l & Hv & Hl). apply list_elem_of_fmap in Hl as (k & -> & Hk).
    apply elem_of_seq in Hk.
    apply list_elem_of_fmap in Hv as (bits & -> & Hbits).
    apply elem_of_combinations in Hbits as [Hsub Hlen].
    split; [apply selection_set_bits|]. rewrite chosen_set_bits by done. lia.
  - intros [Hsel Hlen].
    exists (set_bits n <$> combinations (seq 0 n) (S (pred (length (chosen v))))).
    split.
    + apply list_elem_of_fmap. exists (chosen v).
      split; [by rewrite set_bits_chosen|].
      apply elem_of_combinations. split; [|lia].
      destruct Hsel as [<- _]. apply chosen_sublist.
    + apply list_elem_of_fmap. exists (pred (length (chosen v))).
      split; [done|]. apply elem_of_seq. lia.
Qed.

Lemma combo_lt_irrefl (v : list Z) : ¬ combo_lt v v.
Proof. intros [?|[_ ?%lex_lt_irrefl]]; [lia|done]. Qed.

Lemma StronglySorted_fmap_in {B C} (R1 : relation B) (R2 : relation C)
    (f : B → C) (l : list B) :
  (∀ x y, x ∈ l → y ∈ l → R1 x y → R2 (f x) (f y)) →
  StronglySorted R1 l → StronglySorted R2 (f <$> l).
Proof.
  induction l as [|a l IH]; intros Hf Hs; csimpl; [constructor|].
  apply StronglySorted_cons in Hs as [Ha Hs]. constructor.
  - apply IH; [|done]. intros x y Hx Hy. apply Hf; by right.
  - apply Forall_fmap, Forall_forall. intros y Hy. simpl.
    apply Hf; [left|by right|]. by apply (proj1 (Forall_forall _ _) Ha).
Qed.

Lemma StronglySorted_irrefl_NoDup {B} (R : relation B) (l : list B) :
  (∀ x, ¬ R x x) → StronglySorted R l → NoDup l.
Proof.
  intros Hirr. induction 1 as [|x l Hs IH Hx]; constructor; [|done].
  intros Hin. apply (Hirr x). by apply (proj1 (Forall_forall _ _) Hx).
Qed.

Lemma sorted_groups {B} (R : relation B) (size_of : B → nat) (g : nat → list B) a len :
  (∀ k, StronglySorted R (g k)) →
  (∀ k x, x ∈ g k → size_of x = k) →
  (∀ x y, size_of x < size_of y → R x y) →
  StronglySorted R (mjoin (g <$> seq a len)).
Proof.
  intros Hg Hsize HR. revert a. induction len as [|len IH]; intros a; csimpl.
  - constructor.
  - apply StronglySorted_app_2; [|apply Hg|apply IH].
    intros x y Hx (l & Hy & Hl)%list_elem_of_join.
    apply list_elem_of_fmap in Hl as (k & -> & Hk). apply elem_of_seq in Hk.
    apply HR. rewrite (Hsize _ _ Hx), (Hsize _ _ Hy). lia.
Qed.

Lemma get_item_combos_sorted n : StronglySorted combo_lt (get_item_combos n).
Proof.
  rewrite get_item_combos_flat.
  apply (sorted_groups combo_lt (λ v, pred (length (chosen v)))
           (λ k, set_bits n <$> combinations (seq 0 n) (S k))).
  - intros k. apply (StronglySorted_fmap_in lex_lt).
    + intros x y [Hx Hxl]%elem_of_combinations [Hy Hyl]%elem_of_combinations Hlt.
      right. rewrite !chosen_set_bits by done. split; [congruence|done].
    + apply combinations_sorted, StronglySorted_lt_seq.
  - intros k v (bits & -> & [Hsub Hlen]%elem_of_combinations)%list_elem_of_fmap.
    rewrite chosen_set_bits by done. by rewrite Hlen.
  - intros x y Hlt. left. lia.
Qed.
End get_item_combos.

(** C5: [get_item_combos(n)] returns [2^n - 1] vectors, no two of them
    equal; they are exactly the vectors of [n] flags 0 or 1 that select
    between 1 and [n] positions; a vector that selects fewer positions
    comes before one that selects more, and among those that select as
    many, the one whose positions are lexicographically smaller comes
    first; for [n = 0] the result is empty. *)
Theorem get_item_combos_enumeration (n : nat) :
  length (get_item_combos n) = (2 ^ n - 1)%nat ∧
  NoDup (get_item_combos n) ∧
  (∀ v, v ∈ get_item_combos n ↔
        selection n v ∧ (1 ≤ length (chosen v) ≤ n)%nat) ∧
  StronglySorted combo_lt (get_item_combos n) ∧
  get_item_combos 0 = [].
Proof.
  split; [apply length_get_item_combos|].
  split; [|split; [apply elem_of_get_item_combos|]].
  - eapply StronglySorted_irrefl_NoDup;
      [apply combo_lt_irrefl|apply get_item_combos_sorted].
  - split; [apply get_item_combos_sorted|reflexivity].
Qed.

(** ** get_min_cost on a menu of two or more combos *)

Lemma get_item_combos_nonempty n : (1 ≤ n)%nat → get_item_combos n ≠ [].
Proof.
  intros Hn Hnil. pose proof (length_get_item_combos n) as Hlen.
  rewrite Hnil in Hlen. simpl in Hlen.
  assert (2 ^ 1 ≤ 2 ^ n)%nat by (apply Nat.pow_le_mono_r; lia).
  simpl in *. lia.
Qed.

Lemma min_loop_raises `{FloatOfStr} (m : list (list string)) (items : list string)
    (item_combos : list (list Z)) (min_price : float) :
  item_combos ≠ [] →
  min_loop m items item_combos min_price = Raise AttributeError.
Proof. by destruct item_combos. Qed.

Lemma get_min_cost_raises `{FloatOfStr} (c1 c2 : list string)
    (m : list (list string)) (items : list string) :
  get_min_cost (c1 :: c2 :: m) items = Raise AttributeError.
Proof.
  unfold get_min_cost. rewrite !decide_False by (simpl; lia).
  rewrite min_loop_raises; [done|]. apply get_item_combos_nonempty. simpl. lia.
Qed.

(** C1: on a menu of two or more combos [get_min_cost] returns no price:
    the first call of [is_valid_combo] raises [AttributeError] at its
    guard.  For the two combos (5, coffee) and (3, apples) and the
    request for coffee and apples, the statements of [is_valid_combo]
    after the guard accept the selection of both, the loop of
    [get_price] prices it 8.0, and the claim has [get_min_cost] return
    8.0; it raises instead. *)
Theorem get_min_cost_no_minimum :
  let m := [["5"; "coffee"]; ["3"; "apples"]] in
  let items := ["coffee"; "apples"] in
  is_valid_combo_body m [1; 1] items = Ok true ∧
  @price_loop decimal_float_of_str m [1; 1] [0; 1]%nat 0%float = Ok 8%float ∧
  @get_min_cost decimal_float_of_str m items = Raise AttributeError ∧
  ∀ (P : FloatOfStr) (c1 c2 : list string) (m' : list (list string))
    (items' : list string),
    @get_min_cost P (c1 :: c2 :: m') items' = Raise AttributeError.
Proof.
  repeat split; [by vm_compute..|]. intros. apply get_min_cost_raises.
Qed.

(** C6: [get_min_cost] returns [None] on the empty menu, but never on a
    menu of two or more combos: there it raises in the first call of
    [is_valid_combo], and the value the loop would end with is the float
    [min_price], [float('inf')] when no combination was accepted.  For
    the combos (1, a) and (2, b) and the request for c, which no
    selection covers, the statements of [is_valid_combo] after the guard
    reject every enumerated vector, and the claim has [get_min_cost]
    return [None]; it raises instead. *)
Theorem get_min_cost_absence :
  let m := [["1"; "a"]; ["2"; "b"]] in
  let items := ["c"] in
  (∀ (P : FloatOfStr) (items' : list string), @get_min_cost P [] items' = Ok VNone) ∧
  Forall (λ v, is_valid_combo_body m v items = Ok false) (get_item_combos 2) ∧
  @get_min_cost decimal_float_of_str m items = Raise AttributeError ∧
  (∀ (P : FloatOfStr) (c1 c2 : list string) (m' : list (list string))
     (items' : list string),
     @get_min_cost P (c1 :: c2 :: m') items' ≠ Ok VNone) ∧
  (∀ (P : FloatOfStr) (m' : list (list string)) (items' : list string),
     @min_loop P m' items' [] infinity = Ok infinity).
Proof.
  repeat split.
  - by repeat constructor.
  - intros. by rewrite get_min_cost_raises.
Qed.

(** ** The comparison of floats *)

Section float_order.
Lemma SFltb_key x y :
  SFltb x y = true ↔ x ≠ S754_nan ∧ y ≠ S754_nan ∧ key_lt (sf_key x) (sf_key y).
Proof.
  unfold SFltb, key_lt.
  destruct x as [[]|[]| |[] mx ex], y as [[]|[]| |[] my ey]; simpl;
    try (split; [discriminate|intros (? & ? & ?); try congruence; lia]);
    try (split; [intros _; repeat split; try discriminate; lia|done]).
  all: change (Pos.compare_cont Eq mx my) with (Pos.compare mx my);
    destruct (Z.compare_spec ex ey); destruct (Pos.compare_spec mx my); simpl;
    try (split; [discriminate|intros (? & ? & ?); try congruence; lia]);
    try (split; [intros _; repeat split; try discriminate; lia|done]).
Qed.

Lemma SFeqb_refl x : SFeqb x x = true ↔ x ≠ S754_nan.
Proof.
  unfold SFeqb. destruct x as [[]|[]| |[] m e]; simpl;
    try change (Pos.compare_cont Eq m m) with (Pos.compare m m);
    try (destruct (Z.compare_spec e e); [|lia..]);
    try (destruct (Pos.compare_spec m m); [|lia..]);
    simpl; split; congruence.
Qed.

Lemma is_nan_false f : is_nan f = false ↔ Prim2SF f ≠ S754_nan.
Proof.
  unfold is_nan. rewrite FloatAxioms.eqb_spec.
  pose proof (SFeqb_refl (Prim2SF f)) as Hr.
  destruct (SFeqb _ _); simpl; split; intros Hx; try done.
  - by apply Hr.
  - by apply Hr in Hx.
Qed.

Lemma ltb_key a b :
  (a <? b)%float = true ↔
  is_nan a = false ∧ is_nan b = false ∧
  key_lt (sf_key (Prim2SF a)) (sf_key (Prim2SF b)).
Proof. by rewrite ltb_spec, SFltb_key, !is_nan_false. Qed.

Lemma ltb_irrefl a : (a <? a)%float = false.
Proof.
  destruct (a <? a)%float eqn:E; [|done].
  apply ltb_key in E as (_ & _ & E). unfold key_lt in E. lia.
Qed.

Lemma ltb_trans a b c :
  (a <? b)%float = true → (b <? c)%float = true → (a <? c)%float = true.
Proof.
  rewrite !ltb_key. unfold key_lt. intros (? & ? & ?) (? & ? & ?).
  repeat split; try done. lia.
Qed.

Lemma ltb_cotrans a b c :
  (a <? c)%float = true → is_nan b = false →
  (a <? b)%float = true ∨ (b <? c)%float = true.
Proof.
  rewrite !ltb_key. unfold key_lt. intros (? & ? & ?) ?.
  assert (key_lt (sf_key (Prim2SF a)) (sf_key (Prim2SF b)) ∨
          key_lt (sf_key (Prim2SF b)) (sf_key (Prim2SF c))) as [?|?]
    by (unfold key_lt; lia).
  - by left.
  - by right.
Qed.
End float_order.

(** ** The check of one restaurant *)

Section check_restaurant.
Context `{FloatOfStr}.
Variable items : list string.
Implicit Types m : list (list string).
Implicit Types b : best.

Lemma reduce_menu_nil r : reduce_menu [] items = Some r → r = [].
Proof. unfold reduce_menu. simpl. case_decide; [done|]. by intros [= <-]. Qed.

Lemma has_cost_nonempty m c f : has_cost items m c f → (0 < length m)%nat.
Proof.
  intros (r & Hr & Hc & Hne & _). destruct m; [|simpl; lia].
  apply reduce_menu_nil in Hr as ->. unfold get_min_cost in Hc.
  rewrite decide_True in Hc by done. congruence.
Qed.

Lemma has_cost_fun m c f c' f' :
  has_cost items m c f → has_cost items m c' f' → c' = c ∧ f' = f.
Proof.
  intros (r & Hr & Hc & _ & Hf) (r' & Hr' & Hc' & _ & Hf').
  rewrite Hr in Hr'. injection Hr' as <-.
  rewrite Hc in Hc'. injection Hc' as <-.
  rewrite Hf in Hf'. by injection Hf' as <-.
Qed.

(** A restaurant that serves the request: the tracking variables are
    replaced when its cost is below the kept one, and only then. *)
Lemma check_restaurant_feasible cr m b c fc fb :
  has_cost items m c fc → py_float (min_cost b) = Ok fb →
  check_restaurant items cr m b = Ok (if (fc <? fb)%float then Best c cr else b).
Proof.
  intros Hcost Hb. pose proof (has_cost_nonempty _ _ _ Hcost) as Hlen.
  destruct Hcost as (r & Hr & Hc & Hne & Hf).
  unfold check_restaurant. rewrite decide_True by done. rewrite Hr, Hc. simpl.
  rewrite decide_True by done. rewrite Hf, Hb. simpl.
  by destruct (fc <? fb)%float.
Qed.

Lemma check_restaurant_infeasible cr m b :
  reduce_menu m items = None → check_restaurant items cr m b = Ok b.
Proof. intros Hr. unfold check_restaurant. rewrite Hr. by case_decide. Qed.

Lemma check_restaurant_cases cr m b b' :
  check_restaurant items cr m b = Ok b' →
  (∃ c fc fb, has_cost items m c fc ∧ py_float (min_cost b) = Ok fb ∧
              (fc <? fb)%float = true ∧ b' = Best c cr) ∨
  (b' = b ∧ ∀ c fc fb, has_cost items m c fc →
              py_float (min_cost b) = Ok fb → (fc <? fb)%float = false).
Proof.
  unfold check_restaurant. case_decide as Hlen.
  - destruct (reduce_menu m items) as [r|] eqn:Hr.
    + destruct (get_min_cost r items) as [c|e] eqn:Hc; simpl; [|done].
      case_decide as Hne.
      * destruct (py_float c) as [fc|e] eqn:Hfc; simpl; [|done].
        destruct (py_float (min_cost b)) as [fb|e] eqn:Hfb; simpl; [|done].
        assert (has_cost items m c fc) as Hcost by (by exists r).
        destruct (fc <? fb)%float eqn:Hlt; intros [= <-].
        -- left. by exists c, fc, fb.
        -- right. split; [done|]. intros c' fc' fb' Hcost' [= <-].
           by destruct (has_cost_fun _ _ _ _ _ Hcost Hcost') as [-> ->].
      * intros [= <-]. right. split; [done|].
        intros c' fc' fb' (r' & Hr' & Hc' & Hne' & _) _. congruence.
    + intros [= <-]. right. split; [done|].
      intros c' fc' fb' (r' & Hr' & _) _. congruence.
  - intros [= <-]. right. split; [done|].
    intros c' fc' fb' Hcost%has_cost_nonempty _. lia.
Qed.
End check_restaurant.

(** ** The loop over the lines *)

Section lines.
Context `{FloatOfStr}.
Variable items : list string.

Lemma add_line_app v (m m' : list (list string)) gs :
  add_line v m (add_line v m' gs) = add_line v (m ++ m') gs.
Proof.
  destruct gs as [|[v' m''] gs]; simpl.
  - by rewrite decide_True.
  - case_decide as Hv; simpl.
    + subst v'. rewrite !decide_True by done. by rewrite app_assoc.
    + by rewrite decide_True.
Qed.

Lemma add_line_other v v' (m m' : list (list string)) gs :
  v ≠ v' → add_line v m (add_line v' m' gs) = (v, m) :: add_line v' m' gs.
Proof.
  intros Hne. destruct gs as [|[v'' m''] gs]; simpl.
  - by rewrite decide_False.
  - case_decide; simpl; by rewrite decide_False.
Qed.

(** The loop, started in the middle of a restaurant, checks that
    restaurant with the lines still to come for it, then the others. *)
Lemma line_loop_restaurants lines b v (m : list (list string)) :
  (st ← line_loop items (LoopState b (Some v) m) lines;
   check_restaurant items (curr_restaurant st) (ls_menu st) (ls_best st)) =
  check_all items (add_line v m (restaurants lines)) b.
Proof.
  revert b v m. induction lines as [|[v1 c1] lines IH]; intros b v m.
  - simpl. by destruct (check_restaurant _ _ _ _).
  - cbn [line_loop restaurants fst snd]. unfold line_step. cbn [curr_restaurant ls_menu ls_best fst snd].
    case_decide as Hv.
    + assert (v ≠ v1) as Hne by congruence.
      rewrite add_line_other by done. cbn [check_all fst snd].
      destruct (check_restaurant items (Some v) m b) as [b1|e]; simpl; [|done].
      apply IH.
    + injection Hv as ->.
      rewrite add_line_app. simpl. apply IH.
Qed.

Lemma check_lines_restaurants lines :
  check_lines lines items = check_all items (restaurants lines) best_init.
Proof.
  unfold check_lines. destruct lines as [|[v c] lines]; [done|].
  cbn [line_loop restaurants fst snd]. unfold line_step.
  cbn [curr_restaurant ls_menu ls_best fst snd].
  rewrite decide_True by done. simpl. apply line_loop_restaurants.
Qed.

(** Two consecutive runs have different names, and no run is empty. *)
Lemma restaurants_adjacent (lines : list (string * list string)) i g g' :
  restaurants lines !! i = Some g → restaurants lines !! S i = Some g' →
  g.1 ≠ g'.1.
Proof.
  revert i g g'. induction lines as [|[v c] lines IH]; intros i g g'; [done|].
  cbn [restaurants fst snd].
  destruct (restaurants lines) as [|[v' m'] gs]; [done|]. simpl.
  case_decide as Hv.
  - subst v'. destruct i as [|i]; simpl.
    + intros [= <-] Hg'. simpl. apply (IH 0%nat (v, m') g'); done.
    + intros Hg Hg'. by apply (IH (S i) g g').
  - destruct i as [|i]; simpl.
    + by intros [= <-] [= <-].
    + intros Hg Hg'. by apply (IH i g g').
Qed.

Lemma restaurants_nonempty (lines : list (string * list string)) g :
  g ∈ restaurants lines → g.2 ≠ [].
Proof.
  revert g. induction lines as [|[v c] lines IH]; intros g; [by intros ?%elem_of_nil|].
  cbn [restaurants fst snd].
  destruct (restaurants lines) as [|[v' m'] gs]; simpl.
  - by intros ->%list_elem_of_singleton.
  - case_decide.
    + intros [->|Hg]%elem_of_cons; [done|]. apply IH. by right.
    + intros [->|Hg]%elem_of_cons; [done|]. by apply IH.
Qed.

(** The runs cover the file, in order. *)
Lemma restaurants_lines (lines : list (string * list string)) :
  mjoin ((λ g, pair g.1 <$> g.2) <$> restaurants lines) = lines.
Proof.
  induction lines as [|[v c] lines IH]; [done|]. cbn [restaurants fst snd].
  rewrite <- IH at 2. destruct (restaurants lines) as [|[v' m'] gs]; [done|].
  simpl. case_decide; [subst v'|]; done.
Qed.
End lines.

(** ** The restaurant that main reports *)

Section first_cheapest.
Context `{FloatOfStr}.
Variable items : list string.
Implicit Types gs pre : list (string * list (list string)).

Lemma first_cheapest_init : first_cheapest items [] best_init.
Proof.
  exists infinity. split; [done|]. split; [|done].
  intros j g c f Hj. by rewrite lookup_nil in Hj.
Qed.

Lemma first_cheapest_step pre g b b' :
  first_cheapest items pre b →
  check_restaurant items (Some g.1) g.2 b = Ok b' →
  first_cheapest items (pre ++ [g]) b'.
Proof.
  intros (fb & Hfb & Hall & Hbest) Hcheck.
  apply check_restaurant_cases in Hcheck
    as [(c & fc & fb' & Hcost & Hfb' & Hlt & ->)|[-> Hge]].
  - rewrite Hfb in Hfb'. injection Hfb' as <-.
    exists fc. split; [by destruct Hcost as (? & ? & ? & ? & ?)|]. split.
    + intros j g' c' f' Hj Hcost'.
      apply lookup_app_Some in Hj as [Hj|[_ Hj]].
      * destruct (f' <? fc)%float eqn:Hlt'; [|done].
        rewrite <- (Hall j g' c' f' Hj Hcost'). symmetry. by eapply ltb_trans.
      * apply list_lookup_singleton_Some in Hj as [_ ->].
        destruct (has_cost_fun _ _ _ _ _ _ Hcost Hcost') as [_ ->].
        apply ltb_irrefl.
    + simpl. exists (length pre), g.2. split; [|split; [done|]].
      * rewrite lookup_app_r, Nat.sub_diag by done. by destruct g.
      * intros j g' c' f' Hj Hg' Hcost' Hnan.
        rewrite lookup_app_l in Hg' by done.
        destruct (ltb_cotrans fc f' fb Hlt Hnan) as [?|Hcontra]; [done|].
        by rewrite (Hall j g' c' f' Hg' Hcost') in Hcontra.
  - exists fb. split; [done|]. split.
    + intros j g' c' f' Hj Hcost'.
      apply lookup_app_Some in Hj as [Hj|[_ Hj]]; [by eapply Hall|].
      apply list_lookup_singleton_Some in Hj as [_ ->]. by eapply Hge.
    + destruct (min_restaurant b) as [v|]; [|done].
      destruct Hbest as (i & m & Hi & Hcost & Hearlier).
      pose proof (lookup_lt_Some _ _ _ Hi) as Hlen.
      exists i, m. split; [by rewrite lookup_app_l|]. split; [done|].
      intros j g' c' f' Hj Hg'. rewrite lookup_app_l in Hg' by lia.
      by eapply Hearlier.
Qed.

Lemma check_all_first_cheapest gs pre b b' :
  first_cheapest items pre b →
  check_all items gs b = Ok b' →
  first_cheapest items (pre ++ gs) b'.
Proof.
  revert pre b. induction gs as [|g gs IH]; intros pre b Hinv Hrun; simpl in Hrun.
  - injection Hrun as <-. by rewrite app_nil_r.
  - destruct (check_restaurant items (Some g.1) g.2 b) as [b1|e] eqn:Hcheck;
      simpl in Hrun; [|done].
    rewrite cons_middle, app_assoc. apply (IH _ b1); [|done].
    by eapply first_cheapest_step.
Qed.

(** [main] ends without an exception when each restaurant either is
    turned down by [reduce_menu] or gets a cost. *)
Lemma check_all_total gs b :
  (∀ g, g ∈ gs → reduce_menu g.2 items = None ∨ ∃ c f, has_cost items g.2 c f) →
  is_ok (py_float (min_cost b)) = true →
  ∃ b', check_all items gs b = Ok b'.
Proof.
  revert b. induction gs as [|g gs IH]; intros b Hgs Hb; simpl; [eauto|].
  assert (∀ g', g' ∈ gs → reduce_menu g'.2 items = None
                          ∨ ∃ c f, has_cost items g'.2 c f) as Hrest.
  { intros g' Hg'. apply Hgs. by right. }
  destruct (Hgs g ltac:(left)) as [Hnone|(c & f & Hcost)].
  - rewrite check_restaurant_infeasible by done. simpl. by apply IH.
  - destruct (py_float (min_cost b)) as [fb|] eqn:Hfb; [|done].
    rewrite (check_restaurant_feasible items _ _ _ c f fb Hcost Hfb). simpl.
    apply IH; [done|]. destruct (f <? fb)%float; simpl; [|by rewrite Hfb].
    destruct Hcost as (_ & _ & _ & _ & ->). done.
Qed.

Lemma main_first_cheapest lines b :
  main lines items = Ok (Printed b) → first_cheapest items (restaurants lines) b.
Proof.
  unfold main. case_decide; [done|]. rewrite check_lines_restaurants.
  destruct (check_all _ _ _) as [b'|] eqn:Hrun; simpl; [|done]. intros [= ->].
  apply (check_all_first_cheapest _ [] best_init); [apply first_cheapest_init|done].
Qed.

Lemma main_total lines :
  items ≠ [] →
  (∀ g, g ∈ restaurants lines →
        reduce_menu g.2 items = None ∨ ∃ c f, has_cost items g.2 c f) →
  ∃ b, main lines items = Ok (Printed b).
Proof.
  intros Hitems Hall. unfold main. rewrite decide_False by by destruct items.
  rewrite check_lines_restaurants.
  destruct (check_all_total (restaurants lines) best_init Hall) as [b ->]; [done|].
  by exists b.
Qed.
End first_cheapest.

(** X20: as long as [get_min_cost] returns, the check that [main] runs
    for a restaurant replaces the tracking variables by the restaurant
    and its cost exactly when the restaurant has a cost ([reduce_menu]
    and [get_min_cost] return a menu and a cost that [float] reads) and
    this cost is strictly below the kept one, and leaves them as they are
    otherwise; a cost equal to the kept one never replaces it.  So when
    [main] prints a result, the restaurant it reports is the first of the
    file among those of least cost; and [main] does print a result when
    every restaurant is turned down by [reduce_menu] or has a cost. *)
Theorem aggregator_first_cheapest `{FloatOfStr} (items : list string) :
  (∀ cr m b b',
     check_restaurant items cr m b = Ok b' →
     (∃ c fc fb, has_cost items m c fc ∧ py_float (min_cost b) = Ok fb ∧
                 (fc <? fb)%float = true ∧ b' = Best c cr) ∨
     (b' = b ∧ ∀ c fc fb, has_cost items m c fc →
                 py_float (min_cost b) = Ok fb → (fc <? fb)%float = false)) ∧
  (∀ cr m b c fc fb,
     has_cost items m c fc → py_float (min_cost b) = Ok fb →
     check_restaurant items cr m b =
       Ok (if (fc <? fb)%float then Best c cr else b)) ∧
  (∀ cr m b c f,
     has_cost items m c f → py_float (min_cost b) = Ok f →
     check_restaurant items cr m b = Ok b) ∧
  (∀ lines b,
     main lines items = Ok (Printed b) →
     first_cheapest items (restaurants lines) b) ∧
  (∀ lines,
     items ≠ [] →
     (∀ g, g ∈ restaurants lines →
           reduce_menu g.2 items = None ∨ ∃ c f, has_cost items g.2 c f) →
     ∃ b, main lines items = Ok (Printed b)).
Proof.
  split; [|split; [|split; [|split]]].
  - intros cr m b b'. apply check_restaurant_cases.
  - intros cr m b c fc fb. apply check_restaurant_feasible.
  - intros cr m b c f Hcost Hb.
    rewrite (check_restaurant_feasible items cr m b c f f Hcost Hb).
    by rewrite ltb_irrefl.
  - intros lines b. apply main_first_cheapest.
  - intros lines. apply main_total.
Qed.

Lemma aggregator_first_cheapest_witness :
  let lines := [("A", ["10"; "coffee"; "apples"; "bananas"]);
                ("B", ["7"; "coffee"; "apples"]);
                ("C", ["7"; "apples"; "coffee"])] in
  let items := ["coffee"; "apples"] in
  @main decimal_float_of_str lines items = Ok (Printed (Best (VStr "7") (Some "B"))) ∧
  @first_cheapest decimal_float_of_str items (restaurants lines)
    (Best (VStr "7") (Some "B")).
Proof.
  split; [by vm_compute|].
  apply (@aggregator_first_cheapest decimal_float_of_str ["coffee"; "apples"]).
  by vm_compute.
Defined.

(** ** A restaurant that keeps two combos *)

Lemma check_restaurant_two_combos `{FloatOfStr} (items : list string)
    (cr : option string) (m r : list (list string)) (b : best) :
  reduce_menu m items = Some r → (2 ≤ length r)%nat →
  check_restaurant items cr m b = Raise AttributeError.
Proof.
  intros Hr Hlen. unfold check_restaurant. rewrite Hr.
  assert (0 < length m)%nat as Hm.
  { rewrite reduce_menu_unfold in Hr. cbv zeta in Hr.
    destruct (decide _); [done|]. injection Hr as <-.
    pose proof (sublist_length _ _ (sublist_filter (shares_item items) m)). lia. }
  rewrite decide_True by done.
  destruct r as [|c1 [|c2 r]]; simpl in Hlen; [lia..|].
  by rewrite get_min_cost_raises.
Qed.

(** C7: the check that [main] runs for a restaurant does not replace
    the tracking variables whenever the restaurant serves the request at
    a cost below the kept one: when the restaurant keeps two or more
    combos for the request, the check raises [AttributeError] out of
    [get_min_cost], and so does [main].  For the file with the combos
    (5, coffee) and (3, apples) of A and the combo (7, coffee, apples) of
    B, and the request for coffee and apples: [reduce_menu] keeps both
    combos of A, selecting both covers the request and costs 8.0, which
    is below the initial infinity, so A is to become the kept restaurant
    and B, at 7, the reported one; the check of A raises instead, and
    [main] ends with that exception. *)
Theorem aggregator_aborts :
  let menu_a := [["5"; "coffee"]; ["3"; "apples"]] in
  let lines := [("A", ["5"; "coffee"]); ("A", ["3"; "apples"]);
                ("B", ["7"; "coffee"; "apples"])] in
  let items := ["coffee"; "apples"] in
  reduce_menu menu_a items = Some menu_a ∧
  covers menu_a [1; 1] items ∧
  @price_loop decimal_float_of_str menu_a [1; 1] [0; 1]%nat 0%float = Ok 8%float ∧
  (8 <? infinity)%float = true ∧
  @check_restaurant decimal_float_of_str items (Some "A") menu_a best_init
    = Raise AttributeError ∧
  @main decimal_float_of_str lines items = Raise AttributeError ∧
  ∀ (P : FloatOfStr) (items' : list string) (cr : option string)
    (m r : list (list string)) (b : best),
    reduce_menu m items' = Some r → (2 ≤ length r)%nat →
    @check_restaurant P items' cr m b = Raise AttributeError.
Proof.
  split; [by vm_compute|]. split.
  { intros it Hit. apply elem_of_cons in Hit as [->|Hit].
    - exists 0%nat, 1, ["5"; "coffee"].
      split; [done|]. split; [lia|]. split; [done|]. simpl. set_solver.
    - apply list_elem_of_singleton in Hit as ->.
      exists 1%nat, 1, ["3"; "apples"].
      split; [done|]. split; [lia|]. split; [done|]. simpl. set_solver. }
  split; [by vm_compute|]. split; [by vm_compute|].
  split; [by vm_compute|]. split; [by vm_compute|].
  intros P items' cr m r b. apply check_restaurant_two_combos.
Qed.

(** ** Runs on concrete menus *)

Section examples.
Existing Instance decimal_float_of_str.

Example get_item_combos_3 :
  get_item_combos 3 =
    [[1; 0; 0]; [0; 1; 0]; [0; 0; 1]; [1; 1; 0]; [1; 0; 1]; [0; 1; 1]; [1; 1; 1]].
Proof. reflexivity. Qed.

Example reduce_menu_drops_unrelated :
  reduce_menu [["5"; "coffee"]; ["2"; "tea"]; ["3"; "apples"; "tea"]]
              ["coffee"; "apples"]
    = Some [["5"; "coffee"]; ["3"; "apples"; "tea"]].
Proof. by vm_compute. Qed.

Example reduce_menu_missing_item :
  reduce_menu [["4"; "bananas"]] ["coffee"] = None.
Proof. by vm_compute. Qed.

(** Two restaurants, the first one needing two combos for the request:
    the run ends with the exception of [get_min_cost]. *)
Example main_two_combos :
  main [("A", ["5"; "coffee"]); ("A", ["3"; "apples"]);
        ("B", ["7"; "coffee"; "apples"])]
       ["coffee"; "apples"]
    = Raise AttributeError.
Proof. by vm_compute. Qed.

Example main_no_restaurant :
  main [("A", ["4"; "bananas"])] ["coffee"] = Ok (Printed best_init).
Proof. by vm_compute. Qed.

Example main_one_combo :
  main [("A", ["10"; "coffee"; "apples"; "bananas"])] ["coffee"; "apples"]
    = Ok (Printed (Best (VStr "10") (Some "A"))).
Proof. by vm_compute. Qed.

Example main_no_items :
  main [("A", ["4"; "bananas"])] [] = Ok NoItemsProvided.
Proof. reflexivity. Qed.

Example restaurants_runs :
  restaurants [("A", ["5"; "coffee"]); ("A", ["3"; "apples"]);
               ("B", ["7"; "coffee"; "apples"]); ("A", ["1"; "tea"])]
    = [("A", [["5"; "coffee"]; ["3"; "apples"]]);
       ("B", [["7"; "coffee"; "apples"]]);
       ("A", [["1"; "tea"]])].
Proof. reflexivity. Qed.
End examples.

(** * Further properties *)

(** ** reduce_menu: what is kept *)

Section reduce_menu_more.
Implicit Types m r : list (list string).
Implicit Types items : list string.

Lemma shares_item_iff items (c : list string) :
  shares_item items c ↔ ∃ it, it ∈ drop 1 c ∧ it ∈ items.
Proof. apply common_pos. Qed.

Lemma reduce_menu_Some m items r :
  reduce_menu m items = Some r ↔
  r = filter (shares_item items) m ∧
  common (mjoin (drop 1 <$> r)) items = length items.
Proof.
  rewrite reduce_menu_unfold. cbv zeta. split.
  - case_decide as Hc; [done|]. intros [= <-]. split; [done|].
    destruct (decide (common (mjoin (drop 1 <$> filter (shares_item items) m)) items
                      = length items)); [done|by destruct Hc].
  - intros [-> Hc]. rewrite decide_False; [done|]. intros Hne. by apply Hne.
Qed.

Lemma filter_id_Forall {A} (P : A → Prop) `{!∀ x, Decision (P x)} (l : list A) :
  Forall P l → filter P l = l.
Proof.
  induction 1 as [|x l Hx Hl IH]; [done|]. by rewrite filter_cons_True, IH.
Qed.

Lemma filter_kept_again m items :
  filter (shares_item items) (filter (shares_item items) m)
    = filter (shares_item items) m.
Proof.
  apply filter_id_Forall, Forall_forall. by intros c [? _]%list_elem_of_filter.
Qed.

Lemma filter_none_Forall {A} (P : A → Prop) `{!∀ x, Decision (P x)} (l : list A) :
  Forall (λ x, ¬ P x) l → filter P l = [].
Proof.
  induction 1 as [|x l Hx Hl IH]; [done|]. by rewrite filter_cons_False.
Qed.

Lemma reduce_menu_NoDup m items r : reduce_menu m items = Some r → NoDup items.
Proof.
  intros Hr. destruct (decide (NoDup items)) as [|Hdup]; [done|].
  rewrite (reduce_menu_dup m items Hdup) in Hr. done.
Qed.

Lemma reduce_menu_sells m items r it :
  reduce_menu m items = Some r → it ∈ items → ∃ c, c ∈ r ∧ it ∈ drop 1 c.
Proof.
  intros Hr Hit. pose proof (reduce_menu_NoDup _ _ _ Hr) as Hnd.
  apply reduce_menu_Some in Hr as [_ Hc].
  pose proof (proj1 (common_full _ _ Hnd) Hc it Hit) as Hin.
  apply list_elem_of_join in Hin as (l & Hl & (c & -> & Hcr)%list_elem_of_fmap). eauto.
Qed.
End reduce_menu_more.

(** X1: when [reduce_menu] returns a menu, it is the input menu with
    the combos that sell none of the requested items taken out: the
    combos that sell at least one of them, in the order of the menu
    and as often as they occur; each kept combo has its cost field and
    at least one item. *)
Theorem reduce_menu_kept (m r : list (list string)) (items : list string) :
  reduce_menu m items = Some r →
  r = filter (shares_item items) m ∧
  (∀ c, shares_item items c ↔ ∃ it, it ∈ drop 1 c ∧ it ∈ items) ∧
  r `sublist_of` m ∧
  ∀ c, c ∈ r → (2 ≤ length c)%nat.
Proof.
  intros [-> _]%reduce_menu_Some.
  split; [done|]. split; [apply shares_item_iff|]. split; [apply sublist_filter|].
  intros c [(it & Hit & _)%shares_item_iff _]%list_elem_of_filter.
  destruct c as [|cost [|it' its]]; simpl in *; try lia; by apply elem_of_nil in Hit.
Qed.

Lemma reduce_menu_kept_witness :
  let m := [["5"; "coffee"]; ["2"; "tea"]; ["3"; "apples"; "tea"]] in
  let items := ["coffee"; "apples"] in
  let r := [["5"; "coffee"]; ["3"; "apples"; "tea"]] in
  r = filter (shares_item items) m ∧
  (∀ c, shares_item items c ↔ ∃ it, it ∈ drop 1 c ∧ it ∈ items) ∧
  r `sublist_of` m ∧
  ∀ c, c ∈ r → (2 ≤ length c)%nat.
Proof.
  apply (reduce_menu_kept [["5"; "coffee"]; ["2"; "tea"]; ["3"; "apples"; "tea"]]
           [["5"; "coffee"]; ["3"; "apples"; "tea"]] ["coffee"; "apples"]).
  by vm_compute.
Defined.

(** X2: [reduce_menu] is idempotent: a menu it returns is returned
    unchanged when reduced again for the same request. *)
Theorem reduce_menu_idempotent (m r : list (list string)) (items : list string) :
  reduce_menu m items = Some r → reduce_menu r items = Some r.
Proof.
  intros [-> Hc]%reduce_menu_Some. apply reduce_menu_Some.
  by rewrite filter_kept_again.
Qed.

Lemma reduce_menu_idempotent_witness :
  reduce_menu [["5"; "coffee"]; ["3"; "apples"; "tea"]] ["coffee"; "apples"]
    = Some [["5"; "coffee"]; ["3"; "apples"; "tea"]].
Proof.
  apply (reduce_menu_idempotent
           [["5"; "coffee"]; ["2"; "tea"]; ["3"; "apples"; "tea"]]).
  by vm_compute.
Defined.

(** X3: [reduce_menu] returns the empty menu exactly for the empty
    request, whatever the menu: for a request with at least one item a
    returned menu has at least one combo. *)
Theorem reduce_menu_empty (m : list (list string)) (items : list string) :
  reduce_menu m items = Some [] ↔ items = [].
Proof.
  split.
  - intros [_ Hc]%reduce_menu_Some. unfold common in Hc. simpl in Hc.
    rewrite intersection_empty_l_L, size_empty in Hc. by destruct items.
  - intros ->. apply reduce_menu_Some.
    assert (filter (shares_item []) m = []) as ->; [|done].
    apply filter_none_Forall, Forall_forall.
    intros c _ (it & _ & Hit)%shares_item_iff. by apply elem_of_nil in Hit.
Qed.

(** X4: [reduce_menu] returns a menu only for a request without
    repetition, and the menu then sells every requested item; when it
    keeps exactly one combo, that combo alone sells every requested
    item, which is the case [get_min_cost] answers with the combo's cost
    without a check. *)
Theorem reduce_menu_single_covers (m r : list (list string)) (items : list string) :
  reduce_menu m items = Some r →
  NoDup items ∧
  (∀ it, it ∈ items → ∃ c, c ∈ r ∧ it ∈ drop 1 c) ∧
  (∀ c, r = [c] → ∀ it, it ∈ items → it ∈ drop 1 c).
Proof.
  intros Hr. split; [by eapply reduce_menu_NoDup|].
  split; [intros it; by eapply reduce_menu_sells|].
  intros c -> it Hit.
  destruct (reduce_menu_sells _ _ _ it Hr Hit) as (c' & ->%list_elem_of_singleton & Hin).
  done.
Qed.

Lemma reduce_menu_single_covers_witness :
  let r := [["7"; "coffee"; "apples"]] in
  let items := ["coffee"; "apples"] in
  NoDup items ∧
  (∀ it, it ∈ items → ∃ c, c ∈ r ∧ it ∈ drop 1 c) ∧
  (∀ c, r = [c] → ∀ it, it ∈ items → it ∈ drop 1 c).
Proof.
  apply (reduce_menu_single_covers [["4"; "bananas"]; ["7"; "coffee"; "apples"]]).
  by vm_compute.
Defined.

(** ** is_valid_combo after its guard: results and errors *)

Section body_more.
Implicit Types h : gmap string bool.
Implicit Types m : list (list string).
Implicit Types item_combo : list Z.

Lemma mark_loop_ok m item_combo (xs : list nat) h :
  (∀ x, x ∈ xs → (x < length item_combo)%nat) →
  flags_in_menu m item_combo →
  mark_loop m item_combo xs h =
    Ok (foldl (λ h it, <[it := true]> h) h (selected_items m item_combo xs)).
Proof.
  intros Hxs Hflags. unfold selected_items.
  revert h. induction xs as [|x xs IH]; intros h; [done|].
  destruct (lookup_lt_is_Some_2 _ _ (Hxs x ltac:(left))) as [flag Hflag].
  assert (∀ x', x' ∈ xs → (x' < length item_combo)%nat) as Hxs'.
  { intros x' Hx'. apply Hxs. by right. }
  cbn [mark_loop]. csimpl. unfold index. rewrite Hflag. simpl.
  rewrite foldl_app. case_decide as Hpos.
  - destruct (lookup_lt_is_Some_2 _ _ (Hflags x flag Hflag Hpos)) as [row Hrow].
    rewrite Hrow. simpl. rewrite mark_row_all. simpl. by apply IH.
  - destruct (m !! x); simpl; by apply IH.
Qed.

Lemma mark_loop_index_error m item_combo (xs : list nat) h :
  (∀ x, x ∈ xs → (x < length item_combo)%nat) →
  (∃ x flag, x ∈ xs ∧ item_combo !! x = Some flag ∧ 0 < flag ∧ (length m ≤ x)%nat) →
  mark_loop m item_combo xs h = Raise IndexError.
Proof.
  revert h. induction xs as [|x xs IH]; intros h Hxs (x' & flag' & Hx' & Hflag' & Hpos' & Hout).
  { by apply elem_of_nil in Hx'. }
  destruct (lookup_lt_is_Some_2 _ _ (Hxs x ltac:(left))) as [flag Hflag].
  assert (∀ y, y ∈ xs → (y < length item_combo)%nat) as Hxs'.
  { intros y Hy. apply Hxs. by right. }
  cbn [mark_loop]. unfold index. rewrite Hflag. simpl.
  destruct (decide (x = x')) as [->|Hne].
  - rewrite Hflag' in Hflag. injection Hflag as <-.
    rewrite decide_True by done.
    by rewrite (proj2 (lookup_ge_None m x')) by done.
  - assert (x' ∈ xs) as Hin by (apply elem_of_cons in Hx' as [?|?]; done).
    assert (∀ h', mark_loop m item_combo xs h' = Raise IndexError) as Hrest.
    { intros h'. apply IH; [done|]. by exists x', flag'. }
    case_decide; [|apply Hrest].
    destruct (m !! x) as [row|] eqn:Hrow; simpl; [|done].
    rewrite mark_row_all. simpl. apply Hrest.
Qed.

Lemma body_covers m item_combo (items : list string) :
  flags_in_menu m item_combo →
  ∃ b, is_valid_combo_body m item_combo items = Ok b ∧
       (b = true ↔ covers m item_combo items).
Proof.
  intros Hflags. unfold is_valid_combo_body. cbv zeta.
  rewrite mark_loop_ok; [|intros x Hx%elem_of_seq; lia|done]. simpl.
  set (h := foldl _ _ (selected_items _ _ _)).
  assert (∀ it, it ∈ items →
            h !! it = if decide (it ∈ selected_items m item_combo
                                         (seq 0 (length item_combo)))
                      then Some true else Some false) as Hh.
  { intros it Hit. unfold h. rewrite !mark_all_lookup.
    by rewrite (decide_True (P := it ∈ items)). }
  destruct (check_loop_spec h items) as (b & Hb & Hiff).
  { intros it Hit. rewrite Hh by done. by case_decide. }
  exists b. split; [done|]. rewrite Hiff. unfold covers. split.
  - intros Hall it Hit. specialize (Hall it Hit). rewrite Hh in Hall by done.
    case_decide as Hsel; [|done].
    apply elem_of_selected_items in Hsel as (x & flag & c & _ & ?). by exists x, flag, c.
  - intros Hall it Hit. rewrite Hh by done. rewrite decide_True; [done|].
    destruct (Hall it Hit) as (x & flag & c & Hflag & Hrest).
    apply elem_of_selected_items. exists x, flag, c. split; [|done].
    apply elem_of_seq. apply lookup_lt_Some in Hflag. lia.
Qed.

Lemma body_index_error m item_combo (items : list string) :
  ¬ flags_in_menu m item_combo →
  is_valid_combo_body m item_combo items = Raise IndexError.
Proof.
  intros Hnot. unfold is_valid_combo_body. cbv zeta.
  rewrite mark_loop_index_error; [done|intros x Hx%elem_of_seq; lia|].
  assert (¬ Forall (λ x, ∀ flag, item_combo !! x = Some flag → 0 < flag →
                                 (x < length m)%nat) (seq 0 (length item_combo)))
    as Hex.
  { intros Hall. apply Hnot. intros x flag Hflag Hpos.
    assert (x ∈ seq 0 (length item_combo)) as Hin.
    { apply elem_of_seq. apply lookup_lt_Some in Hflag. lia. }
    exact (proj1 (Forall_forall _ _) Hall x Hin flag Hflag Hpos). }
  apply not_Forall_Exists in Hex.
  - apply Exists_exists in Hex as (x & Hx & Hbad). exists x.
    destruct (item_combo !! x) as [flag|] eqn:Hflag.
    + exists flag. split; [done|]. split; [done|].
      destruct (decide (0 < flag)) as [Hpos|Hneg].
      * split; [done|]. destruct (decide (length m ≤ x)%nat); [done|].
        exfalso. apply Hbad. intros flag' Heq _. lia.
      * exfalso. apply Hbad. intros flag' Heq ?. simpl in Heq. congruence.
    + exfalso. apply Hbad. intros flag' Heq. simpl in Heq. congruence.
  - intros x. destruct (item_combo !! x) as [flag|].
    + destruct (decide (0 < flag → (x < length m)%nat)) as [Hd|Hd].
      * left. intros flag' Heq. assert (flag' = flag) as -> by congruence. done.
      * right. intros Hall. apply Hd. by apply Hall.
    + left. intros flag' Heq. congruence.
Qed.
End body_more.

(** X5: the statements of [is_valid_combo] after its guard return a
    boolean exactly when every flag greater than 0 stands at a position
    of the menu, and raise [IndexError] otherwise; the lengths of the
    menu and of the item combination need not agree.  The boolean is
    [True] exactly when every requested item is among the items of a
    combo whose flag is greater than 0. *)
Theorem is_valid_combo_body_result (m : list (list string)) (item_combo : list Z)
    (items : list string) :
  (flags_in_menu m item_combo →
     ∃ b, is_valid_combo_body m item_combo items = Ok b ∧
          (b = true ↔ covers m item_combo items)) ∧
  (¬ flags_in_menu m item_combo →
     is_valid_combo_body m item_combo items = Raise IndexError).
Proof. split; [apply body_covers|apply body_index_error]. Qed.

Lemma is_valid_combo_body_result_witness :
  let m := [["5"; "coffee"]; ["3"; "apples"]] in
  (∃ b, is_valid_combo_body m [1] ["coffee"] = Ok b ∧
        (b = true ↔ covers m [1] ["coffee"])) ∧
  is_valid_combo_body m [0; 0; 1] ["coffee"] = Raise IndexError.
Proof.
  split.
  - apply (proj1 (is_valid_combo_body_result
                    [["5"; "coffee"]; ["3"; "apples"]] [1] ["coffee"])).
    intros [|x] flag Hflag _; simpl; [lia|done].
  - apply (proj2 (is_valid_combo_body_result
                    [["5"; "coffee"]; ["3"; "apples"]] [0; 0; 1] ["coffee"])).
    intros Hflags. specialize (Hflags 2%nat 1 eq_refl ltac:(lia)). simpl in Hflags. lia.
Defined.

(** ** get_price after its guard: results and errors *)

Section price_more.
Context `{FloatOfStr}.
Implicit Types m : list (list string).
Implicit Types item_combo : list Z.

Lemma float_of_int_Ok z :
  is_infinity (round_int z) = false → float_of_int z = Ok (round_int z).
Proof. intros Hz. unfold float_of_int. by rewrite Hz. Qed.

Lemma float_of_int_Raise z :
  is_infinity (round_int z) ≠ false → float_of_int z = Raise OverflowError.
Proof. intros Hz. unfold float_of_int. by destruct (is_infinity (round_int z)). Qed.

Lemma price_loop_ok m item_combo (prices : list float) (a len : nat) (price : float) :
  length prices = length item_combo →
  (∀ i f, prices !! i = Some f → ∃ c, m !! i = Some c ∧ cost_is c f) →
  (a + len = length item_combo)%nat →
  price_loop m item_combo (seq a len) price =
    if decide (Forall (λ z, is_infinity (round_int z) = false) (drop a item_combo))
    then Ok (foldl (λ p x, p + x.1 * round_int x.2)%float price
                   (drop a (zip prices item_combo)))
    else Raise OverflowError.
Proof.
  intros Hlen Hprices. revert a price. induction len as [|len IH]; intros a price Ha.
  - simpl. rewrite (drop_ge item_combo) by lia.
    rewrite (drop_ge (zip prices item_combo)) by (rewrite length_zip_with; lia).
    by rewrite decide_True by constructor.
  - cbn [seq price_loop]. unfold index.
    destruct (lookup_lt_is_Some_2 prices a) as [f Hf]; [lia|].
    destruct (lookup_lt_is_Some_2 item_combo a) as [flag Hflag]; [lia|].
    destruct (Hprices a f Hf) as (row & Hrow & cost & Hcost & Hparse).
    rewrite Hrow. simpl. rewrite Hcost. simpl. rewrite Hparse. simpl.
    rewrite Hflag. simpl.
    assert (zip prices item_combo !! a = Some (f, flag)) as Hzip.
    { rewrite lookup_zip_with, Hf. simpl. by rewrite Hflag. }
    rewrite (drop_S _ _ _ Hzip), (drop_S _ _ _ Hflag).
    destruct (decide (is_infinity (round_int flag) = false)) as [Hfin|Hinf].
    + rewrite (float_of_int_Ok _ Hfin). simpl. rewrite IH by lia.
      destruct (decide (Forall _ (drop (S a) item_combo))) as [Hrest|Hrest].
      * by rewrite decide_True by (by constructor).
      * rewrite decide_False; [done|]. by intros [_ ?]%Forall_cons.
    + rewrite (float_of_int_Raise _ Hinf). simpl.
      rewrite decide_False; [done|]. by intros [? _]%Forall_cons.
Qed.

Lemma price_loop_needs m item_combo (a len : nat) (price q : float) :
  price_loop m item_combo (seq a len) price = Ok q →
  ∀ i, (a ≤ i < a + len)%nat → ∃ c f, m !! i = Some c ∧ cost_is c f.
Proof.
  revert a price. induction len as [|len IH]; intros a price Hrun i Hi; [lia|].
  cbn [seq price_loop] in Hrun. unfold index in Hrun.
  destruct (m !! a) as [row|] eqn:Hrow; simpl in Hrun; [|done].
  destruct (row !! 0%nat) as [cost|] eqn:Hcost; simpl in Hrun; [|done].
  destruct (float_of_str cost) as [f|] eqn:Hparse; simpl in Hrun; [|done].
  destruct (item_combo !! a) as [flag|]; simpl in Hrun; [|done].
  destruct (float_of_int flag) as [k|]; simpl in Hrun; [|done].
  destruct (decide (i = a)) as [->|Hne].
  - exists row, f. split; [done|]. by exists cost.
  - apply (IH _ _ Hrun). lia.
Qed.
End price_more.

(** X6: the loop of [get_price] after the guard, when the first
    [len(item_combo)] combos of the menu have costs that [float] reads:
    if every flag is an integer within the range of the floats, it
    returns the sum, taken from 0.0 in the order of the menu, of each of
    these costs times its flag as a float; if some flag is beyond that
    range, it raises [OverflowError].  The menu may be longer than the
    item combination: the combos beyond it are not read. *)
Theorem price_loop_result `{FloatOfStr} (m : list (list string))
    (item_combo : list Z) (prices : list float) :
  length prices = length item_combo →
  (∀ i f, prices !! i = Some f → ∃ c, m !! i = Some c ∧ cost_is c f) →
  price_loop m item_combo (seq 0 (length item_combo)) 0%float =
    if decide (Forall (λ z, is_infinity (round_int z) = false) item_combo)
    then Ok (foldl (λ p x, p + x.1 * round_int x.2)%float 0%float
                   (zip prices item_combo))
    else Raise OverflowError.
Proof.
  intros Hlen Hprices.
  by rewrite (price_loop_ok m item_combo prices 0 (length item_combo)) by done.
Qed.

Lemma price_loop_result_witness :
  @price_loop decimal_float_of_str
    [["5"; "coffee"]; ["2.5"; "tea"]; ["3"; "apples"]] [1; 0]
    (seq 0 (length [1; 0])) 0%float =
    if decide (Forall (λ z, is_infinity (round_int z) = false) [1; 0])
    then Ok (foldl (λ p x, p + x.1 * round_int x.2)%float 0%float
                   (zip [5%float; 2.5%float] [1; 0]))
    else Raise OverflowError.
Proof.
  apply (@price_loop_result decimal_float_of_str
           [["5"; "coffee"]; ["2.5"; "tea"]; ["3"; "apples"]] [1; 0]
           [5%float; 2.5%float]); [done|].
  intros [|[|i]] f; simpl; intros [= <-].
  - exists ["5"; "coffee"]. split; [done|]. by exists "5".
  - exists ["2.5"; "tea"]. split; [done|]. by exists "2.5".
Defined.

(** X7: the loop of [get_price] after the guard returns a price only if
    the menu is at least as long as the item combination and every combo
    under the item combination has a cost field that [float] reads,
    whether its flag is set or not: the cost of a combo that is not
    selected is read and converted all the same. *)
Theorem price_loop_reads_all `{FloatOfStr} (m : list (list string))
    (item_combo : list Z) (q : float) :
  price_loop m item_combo (seq 0 (length item_combo)) 0%float = Ok q →
  (length item_combo ≤ length m)%nat ∧
  ∀ i, (i < length item_combo)%nat → ∃ c f, m !! i = Some c ∧ cost_is c f.
Proof.
  intros Hrun.
  assert (∀ i, (i < length item_combo)%nat → ∃ c f, m !! i = Some c ∧ cost_is c f)
    as Hall.
  { intros i Hi. apply (price_loop_needs _ _ _ _ _ _ Hrun). lia. }
  split; [|done].
  destruct (decide (length item_combo = 0)%nat) as [->|Hne]; [lia|].
  destruct (Hall (length item_combo - 1)%nat ltac:(lia)) as (c & _ & Hc & _).
  apply lookup_lt_Some in Hc. lia.
Qed.

Lemma price_loop_reads_all_witness :
  let m := [["5"; "coffee"]; ["3"; "apples"]] in
  (length [0; 1] ≤ length m)%nat ∧
  ∀ i, (i < length [0; 1])%nat →
       ∃ c f, m !! i = Some c ∧ @cost_is decimal_float_of_str c f.
Proof.
  apply (@price_loop_reads_all decimal_float_of_str
           [["5"; "coffee"]; ["3"; "apples"]] [0; 1] 3%float).
  by vm_compute.
Defined.

(** X8: [get_min_cost] returns in two cases only: [None] for the empty
    menu, and the cost field of the combo for a menu of exactly one
    combo that has one.  It raises in every other case, so it never
    returns a float. *)
Theorem get_min_cost_returns `{FloatOfStr} (m : list (list string))
    (items : list string) (v : pyval) :
  get_min_cost m items = Ok v ↔
  (m = [] ∧ v = VNone) ∨ (∃ cost its, m = [cost :: its] ∧ v = VStr cost).
Proof.
  destruct m as [|c [|c2 m]].
  - split; [intros [= <-]; by left|]. intros [[_ ->]|(? & ? & ? & _)]; done.
  - destruct c as [|cost its].
    + split; [done|]. intros [[? _]|(? & ? & ? & _)]; done.
    + split.
      * intros [= <-]. right. by exists cost, its.
      * intros [[? _]|(? & ? & [= <- <-] & ->)]; done.
  - rewrite get_min_cost_raises. split; [done|].
    intros [[? _]|(? & ? & ? & _)]; done.
Qed.

(** X9: the inner loop of [get_item_combos], which sets the flags of a
    combination of positions in a vector of zeros, and the reading of the
    set positions of a vector are inverse to each other: for positions
    below [n] in increasing order the vector has length [n], flags 0 or
    1, and its set positions are the given ones; and a vector of [n]
    flags 0 or 1 is rebuilt from its set positions. *)
Theorem set_bits_round_trip (n : nat) :
  (∀ bits, bits `sublist_of` seq 0 n →
           selection n (set_bits n bits) ∧ chosen (set_bits n bits) = bits) ∧
  (∀ v, selection n v → set_bits n (chosen v) = v).
Proof.
  split.
  - intros bits Hsub. split; [apply selection_set_bits|by apply chosen_set_bits].
  - intros v. apply set_bits_chosen.
Qed.

(** ** main: which restaurants are checked, what is reported, how it fails *)

Section main_more.
Context `{FloatOfStr}.
Variable items : list string.
Implicit Types m r : list (list string).
Implicit Types gs : list (string * list (list string)).
Implicit Types b : best.

Lemma get_min_cost_one (cost : string) (its : list string) :
  get_min_cost [cost :: its] items = Ok (VStr cost).
Proof. reflexivity. Qed.

Lemma kept_combo_shape m r c :
  reduce_menu m items = Some r → c ∈ r →
  c ∈ m ∧ ∃ cost it its, c = cost :: it :: its.
Proof.
  intros [-> _]%reduce_menu_Some [(it & Hit & _)%shares_item_iff Hc]%list_elem_of_filter.
  split; [done|].
  destruct c as [|cost [|it' its]]; simpl in Hit; [by apply elem_of_nil in Hit..|].
  by exists cost, it', its.
Qed.

Lemma reduce_menu_nonempty m r :
  items ≠ [] → reduce_menu m items = Some r → r ≠ [] ∧ m ≠ [].
Proof.
  intros Hitems Hr. assert (r ≠ []) as Hne.
  { intros ->. apply reduce_menu_Some in Hr as [_ Hc]. unfold common in Hc.
    simpl in Hc. rewrite intersection_empty_l_L, size_empty in Hc. by destruct items. }
  split; [done|]. intros ->. by apply reduce_menu_nil in Hr.
Qed.

(** The outcome of the check of one restaurant, by the menu that
    [reduce_menu] keeps. *)
Lemma check_restaurant_outcome cr m b fb :
  items ≠ [] → py_float (min_cost b) = Ok fb →
  match reduce_menu m items with
  | None => check_restaurant items cr m b = Ok b
  | Some [] => False
  | Some [c] =>
      ∃ cost it its, c = cost :: it :: its ∧ c ∈ m ∧
        match float_of_str cost with
        | Some f => check_restaurant items cr m b =
                      Ok (if (f <? fb)%float then Best (VStr cost) cr else b)
        | None => check_restaurant items cr m b = Raise ValueError
        end
  | Some (_ :: _ :: _) => check_restaurant items cr m b = Raise AttributeError
  end.
Proof.
  intros Hitems Hfb. destruct (reduce_menu m items) as [r|] eqn:Hr.
  - destruct (reduce_menu_nonempty m r Hitems Hr) as [Hrne Hmne].
    assert (0 < length m)%nat as Hlen by (destruct m; [done|simpl; lia]).
    destruct r as [|c [|c2 r]]; [done| |].
    + destruct (kept_combo_shape m [c] c Hr ltac:(left)) as (Hc & cost & it & its & ->).
      exists cost, it, its. split; [done|]. split; [done|].
      unfold check_restaurant. rewrite decide_True by done. rewrite Hr.
      rewrite get_min_cost_one. simpl.
      destruct (float_of_str cost) as [f|]; simpl; [|done].
      rewrite Hfb. simpl. by destruct (f <? fb)%float.
    + unfold check_restaurant. rewrite decide_True by done. rewrite Hr.
      by rewrite get_min_cost_raises.
  - by apply check_restaurant_infeasible.
Qed.

Lemma kept_cost_ok_init : kept_cost_ok best_init.
Proof. by exists infinity. Qed.

Lemma kept_cost_ok_step v m b b' :
  items ≠ [] → kept_cost_ok b →
  check_restaurant items (Some v) m b = Ok b' → kept_cost_ok b'.
Proof.
  intros Hitems (fb & Hfb & Hb) Hcheck.
  pose proof (check_restaurant_outcome (Some v) m b fb Hitems Hfb) as Hout.
  destruct (reduce_menu m items) as [[|c [|c2 r]]|]; [done| | |].
  - destruct Hout as (cost & it & its & -> & _ & Hout).
    destruct (float_of_str cost) as [f|] eqn:Hf; [|congruence].
    rewrite Hout in Hcheck. injection Hcheck as <-.
    destruct (f <? fb)%float eqn:Hlt; [|by exists fb].
    exists f. simpl. rewrite Hf. split; [done|].
    destruct (min_restaurant b).
    + by eapply ltb_trans.
    + subst b. simpl in Hfb. by injection Hfb as <-.
  - congruence.
  - rewrite Hout in Hcheck. injection Hcheck as <-. by exists fb.
Qed.

Lemma check_all_kept_cost_ok gs b b' :
  items ≠ [] → kept_cost_ok b → check_all items gs b = Ok b' → kept_cost_ok b'.
Proof.
  intros Hitems. revert b. induction gs as [|g gs IH]; intros b Hb Hrun; simpl in Hrun.
  - by injection Hrun as <-.
  - destruct (check_restaurant items (Some g.1) g.2 b) as [b1|] eqn:Hcheck;
      simpl in Hrun; [|done].
    apply (IH b1); [|done]. by eapply kept_cost_ok_step.
Qed.

(** When all checks go through, every restaurant that [reduce_menu]
    lets pass keeps exactly one combo. *)
Lemma check_all_single gs b b' g r :
  items ≠ [] → kept_cost_ok b → check_all items gs b = Ok b' →
  g ∈ gs → reduce_menu g.2 items = Some r →
  ∃ cost it its, r = [cost :: it :: its] ∧ is_Some (float_of_str cost).
Proof.
  intros Hitems. revert b. induction gs as [|g' gs IH]; intros b Hb Hrun Hg Hr.
  { by apply elem_of_nil in Hg. }
  simpl in Hrun.
  destruct (check_restaurant items (Some g'.1) g'.2 b) as [b1|] eqn:Hcheck;
    simpl in Hrun; [|done].
  apply elem_of_cons in Hg as [->|Hg].
  - destruct Hb as (fb & Hfb & _).
    pose proof (check_restaurant_outcome (Some g'.1) g'.2 b fb Hitems Hfb) as Hout.
    rewrite Hr in Hout. destruct r as [|c [|c2 r]]; [done| |congruence].
    destruct Hout as (cost & it & its & -> & _ & Hout).
    exists cost, it, its. split; [done|].
    destruct (float_of_str cost); [done|congruence].
  - apply (IH b1); [|done..]. by eapply kept_cost_ok_step.
Qed.

(** When a check raises, it is the check of a restaurant that keeps two
    or more combos, or one combo whose cost [float] rejects. *)
Lemma check_all_raises gs b e :
  items ≠ [] → kept_cost_ok b → check_all items gs b = Raise e →
  ∃ g r, g ∈ gs ∧ reduce_menu g.2 items = Some r ∧
    ((e = AttributeError ∧ (2 ≤ length r)%nat) ∨
     (e = ValueError ∧ ∃ cost its, r = [cost :: its] ∧ float_of_str cost = None)).
Proof.
  intros Hitems. revert b. induction gs as [|g gs IH]; intros b Hb Hrun; [done|].
  simpl in Hrun.
  destruct (check_restaurant items (Some g.1) g.2 b) as [b1|e1] eqn:Hcheck;
    simpl in Hrun.
  - destruct (IH b1) as (g' & r & Hg' & Hrest); [by eapply kept_cost_ok_step|done|].
    exists g', r. split; [by right|done].
  - injection Hrun as ->. destruct Hb as (fb & Hfb & _).
    pose proof (check_restaurant_outcome (Some g.1) g.2 b fb Hitems Hfb) as Hout.
    destruct (reduce_menu g.2 items) as [[|c [|c2 r]]|] eqn:Hr; [done| | |congruence].
    + destruct Hout as (cost & it & its & -> & _ & Hout).
      destruct (float_of_str cost) as [f|] eqn:Hf; [congruence|].
      exists g, [cost :: it :: its]. split; [left|]. split; [done|]. right.
      split; [congruence|]. by exists cost, (it :: its).
    + exists g, (c :: c2 :: r). split; [left|]. split; [done|]. left.
      split; [congruence|simpl; lia].
Qed.
End main_more.

Section main_results.
Context `{FloatOfStr}.
Variable items : list string.

Lemma main_check_all lines :
  main lines items =
    if decide (length items = 0%nat) then Ok NoItemsProvided
    else b ← check_all items (restaurants lines) best_init; Ok (Printed b).
Proof. unfold main. by rewrite check_lines_restaurants. Qed.

Lemma main_Printed lines b :
  main lines items = Ok (Printed b) →
  items ≠ [] ∧ check_all items (restaurants lines) best_init = Ok b.
Proof.
  rewrite main_check_all. case_decide as Hlen; [done|].
  destruct (check_all _ _ _) as [b'|]; simpl; [|done]. intros [= ->].
  split; [|done]. intros ->. done.
Qed.

Lemma main_Raise lines e :
  main lines items = Raise e →
  items ≠ [] ∧ check_all items (restaurants lines) best_init = Raise e.
Proof.
  rewrite main_check_all. case_decide as Hlen; [done|].
  destruct (check_all _ _ _) as [b'|e']; simpl; [done|]. intros [= ->].
  split; [|done]. intros ->. done.
Qed.
End main_results.

(** X10: the loop of [main] checks the restaurants one after the
    other, each once, where a restaurant is a maximal run of consecutive
    lines with one name and its menu the fields after the name of these
    lines, in order: the runs make up the file, two runs that follow each
    other have different names, and no run is empty.  A name that comes
    back after another one starts a new restaurant. *)
Theorem main_checks_runs `{FloatOfStr}
    (lines : list (string * list string)) (items : list string) :
  main lines items =
    (if decide (length items = 0%nat) then Ok NoItemsProvided
     else b ← check_all items (restaurants lines) best_init; Ok (Printed b)) ∧
  mjoin ((λ g, pair g.1 <$> g.2) <$> restaurants lines) = lines ∧
  (∀ i g g', restaurants lines !! i = Some g →
             restaurants lines !! S i = Some g' → g.1 ≠ g'.1) ∧
  (∀ g, g ∈ restaurants lines → g.2 ≠ []).
Proof.
  split; [apply main_check_all|]. split; [apply restaurants_lines|].
  split; [apply restaurants_adjacent|apply restaurants_nonempty].
Qed.

(** X11: [main] prints a result only when every restaurant that
    [reduce_menu] lets pass keeps exactly one combo, with a cost that
    [float] reads; that combo sells every requested item by itself.  A
    request that takes two combos of a restaurant never gets a result. *)
Theorem main_result_single_combos `{FloatOfStr}
    (lines : list (string * list string)) (items : list string) (b : best) :
  main lines items = Ok (Printed b) →
  ∀ g r, g ∈ restaurants lines → reduce_menu g.2 items = Some r →
    ∃ cost its, r = [cost :: its] ∧ is_Some (float_of_str cost) ∧
                ∀ it, it ∈ items → it ∈ its.
Proof.
  intros [Hitems Hrun]%main_Printed g r Hg Hr.
  destruct (check_all_single items _ _ _ g r Hitems kept_cost_ok_init Hrun Hg Hr)
    as (cost & it & its & -> & Hf).
  exists cost, (it :: its). split; [done|]. split; [done|].
  intros it' Hit'.
  destruct (reduce_menu_sells _ _ _ it' Hr Hit') as (c & ->%list_elem_of_singleton & Hin).
  done.
Qed.

Lemma main_result_single_combos_witness :
  let items := ["coffee"; "apples"] in
  ∃ cost its, [["7"; "coffee"; "apples"]] = [cost :: its] ∧
              is_Some (@float_of_str decimal_float_of_str cost) ∧
              ∀ it, it ∈ items → it ∈ its.
Proof.
  apply (@main_result_single_combos decimal_float_of_str
           [("A", ["10"; "coffee"; "apples"; "bananas"]);
            ("A", ["2"; "tea"]);
            ("B", ["7"; "coffee"; "apples"])]
           ["coffee"; "apples"] (Best (VStr "7") (Some "B"))
           ltac:(by vm_compute)
           ("B", [["7"; "coffee"; "apples"]])).
  - simpl. set_solver.
  - by vm_compute.
Defined.

(** X12: what [main] reports.  Either no restaurant ([min_restaurant]
    and [min_cost] are as initialised), or a restaurant of the file
    together with the cost field, as written in the file, of one of its
    combos; that combo sells every requested item, and its cost reads as
    a float below infinity.  The cost reported is never a sum over
    several combos. *)
Theorem main_reports `{FloatOfStr}
    (lines : list (string * list string)) (items : list string) (b : best) :
  main lines items = Ok (Printed b) →
  match min_restaurant b with
  | None => b = best_init
  | Some v =>
      ∃ i m cost its f,
        restaurants lines !! i = Some (v, m) ∧ (cost :: its) ∈ m ∧
        min_cost b = VStr cost ∧ (∀ it, it ∈ items → it ∈ its) ∧
        float_of_str cost = Some f ∧ (f <? infinity)%float = true
  end.
Proof.
  intros Hmain. pose proof (main_first_cheapest _ _ _ Hmain) as (fb & Hfb & _ & Hbest).
  apply main_Printed in Hmain as [Hitems Hrun].
  pose proof (check_all_kept_cost_ok items _ _ _ Hitems kept_cost_ok_init Hrun)
    as (fb' & Hfb' & Hinf).
  rewrite Hfb in Hfb'. injection Hfb' as <-.
  destruct (min_restaurant b) as [v|]; [|done].
  destruct Hbest as (i & m & Hi & (r & Hr & Hc & _ & Hf) & _).
  assert ((v, m) ∈ restaurants lines) as Hg by (by eapply list_elem_of_lookup_2).
  destruct (check_all_single items _ _ _ (v, m) r Hitems kept_cost_ok_init Hrun Hg Hr)
    as (cost & it & its & -> & _).
  rewrite get_min_cost_one in Hc. injection Hc as Hc.
  destruct (kept_combo_shape items m _ (cost :: it :: its) Hr ltac:(left)) as [Hin _].
  exists i, m, cost, (it :: its), fb. rewrite <- Hc in Hf. simpl in Hf.
  destruct (float_of_str cost) as [f|] eqn:Hcost; [|done]. injection Hf as ->.
  repeat split; try done.
  intros it' Hit'.
  destruct (reduce_menu_sells _ _ _ it' Hr Hit') as (c & ->%list_elem_of_singleton & ?).
  done.
Qed.

Lemma main_reports_witness :
  let lines := [("A", ["10"; "coffee"; "apples"; "bananas"]);
                ("B", ["7"; "coffee"; "apples"])] in
  let items := ["coffee"; "apples"] in
  ∃ i m cost its f,
    restaurants lines !! i = Some ("B", m) ∧ (cost :: its) ∈ m ∧
    VStr "7" = VStr cost ∧ (∀ it, it ∈ items → it ∈ its) ∧
    @float_of_str decimal_float_of_str cost = Some f ∧
    (f <? infinity)%float = true.
Proof.
  apply (@main_reports decimal_float_of_str
           [("A", ["10"; "coffee"; "apples"; "bananas"]);
            ("B", ["7"; "coffee"; "apples"])]
           ["coffee"; "apples"] (Best (VStr "7") (Some "B"))).
  by vm_compute.
Defined.

(** ** The formatting of a line *)

Section strings.
Implicit Types s t : string.
Implicit Types p : Ascii.ascii → bool.

Lemma app_cons a s t : String a s +:+ t = String a (s +:+ t).
Proof. reflexivity. Qed.

Lemma chars_app s t : chars (s +:+ t) = chars s ++ chars t.
Proof. induction s as [|a s IH]; [done|]. rewrite app_cons. simpl. by rewrite IH. Qed.

Lemma chars_inj s t : chars s = chars t → s = t.
Proof.
  revert t. induction s as [|a s IH]; intros [|b t]; simpl; try done.
  intros [= -> Hst]. f_equal. by apply IH.
Qed.

Lemma split_cons sep s : ∃ f fs, split sep s = f :: fs.
Proof.
  induction s as [|a s (f & fs & IH)]; simpl; [eauto|].
  case_decide; [eauto|]. rewrite IH. eauto.
Qed.

Lemma split_length sep s :
  length (split sep s) = S (length (filter (λ a, a = sep) (chars s))).
Proof.
  induction s as [|a s IH]; [done|]. cbn [split chars].
  destruct (split_cons sep s) as (f & fs & Hs). rewrite Hs in IH |- *.
  case_decide.
  - rewrite filter_cons_True by done. cbn [length]. f_equal. exact IH.
  - rewrite filter_cons_False by done. exact IH.
Qed.

Lemma split_no_sep sep s f : f ∈ split sep s → sep ∉ chars f.
Proof.
  revert f. induction s as [|a s IH]; intros f; simpl.
  - intros ->%list_elem_of_singleton. apply not_elem_of_nil.
  - destruct (split_cons sep s) as (f' & fs & Hs). rewrite Hs in *.
    case_decide as Ha.
    + intros [->|Hf]%elem_of_cons; [apply not_elem_of_nil|by apply IH].
    + intros [->|Hf]%elem_of_cons.
      * simpl. intros [?|Hin]%elem_of_cons; [done|].
        by apply (IH f' ltac:(left)).
      * apply IH. by right.
Qed.

Lemma lstrip_chars p s :
  ∃ pre, chars s = pre ++ chars (lstrip p s) ∧ Forall (λ a, p a = true) pre.
Proof.
  induction s as [|a s (pre & IH & Hpre)]; simpl.
  - by exists [].
  - destruct (p a) eqn:Hp.
    + exists (a :: pre). rewrite IH at 1. split; [done|]. by constructor.
    + by exists [].
Qed.

Lemma rstrip_chars p s :
  ∃ suf, chars s = chars (rstrip p s) ++ suf ∧ Forall (λ a, p a = true) suf.
Proof.
  induction s as [|a s (suf & IH & Hsuf)]; simpl.
  - by exists [].
  - destruct (rstrip p s) as [|b r] eqn:Hr; simpl in *.
    + destruct (p a) eqn:Hp; simpl.
      * exists (a :: suf). rewrite IH. split; [done|]. by constructor.
      * exists suf. by rewrite IH.
    + exists suf. by rewrite IH.
Qed.

Lemma lstrip_head p s a : head (chars (lstrip p s)) = Some a → p a = false.
Proof.
  induction s as [|b s IH]; simpl; [done|].
  destruct (p b) eqn:Hp; [done|]. simpl. by intros [= <-].
Qed.

Lemma rstrip_last p s a : last (chars (rstrip p s)) = Some a → p a = false.
Proof.
  induction s as [|b s IH]; simpl; [done|].
  destruct (rstrip p s) as [|c r] eqn:Hr.
  - destruct (p b) eqn:Hp; simpl; [done|]. by intros [= <-].
  - simpl in *. done.
Qed.

Lemma rstrip_head p s a :
  head (chars s) = Some a → p a = false → head (chars (rstrip p s)) = Some a.
Proof.
  destruct s as [|b s]; simpl; [done|]. intros [= ->] Hp.
  destruct (rstrip p s); simpl; [by rewrite Hp|done].
Qed.

Lemma strip_head p s a : head (chars (strip p s)) = Some a → p a = false.
Proof.
  unfold strip. destruct (head (chars (lstrip p s))) as [b|] eqn:Hb.
  - pose proof (lstrip_head p s b Hb) as Hp.
    rewrite (rstrip_head p _ b Hb Hp). by intros [= <-].
  - destruct (lstrip p s); simpl in *; done.
Qed.

Lemma strip_chars p s :
  ∃ pre suf, chars s = pre ++ chars (strip p s) ++ suf ∧
             Forall (λ a, p a = true) pre ∧ Forall (λ a, p a = true) suf.
Proof.
  destruct (lstrip_chars p s) as (pre & Hs & Hpre).
  destruct (rstrip_chars p (lstrip p s)) as (suf & Ht & Hsuf).
  exists pre, suf. unfold strip. by rewrite Hs, Ht.
Qed.

Lemma strip_fixed p s :
  (∀ a, head (chars s) = Some a → p a = false) →
  (∀ a, last (chars s) = Some a → p a = false) →
  strip p s = s.
Proof.
  intros Hhead Hlast. unfold strip.
  assert (lstrip p s = s) as ->.
  { destruct s as [|a s]; [done|]. simpl. by rewrite (Hhead a). }
  clear Hhead. induction s as [|a s IH]; [done|]. simpl.
  destruct s as [|b s].
  - simpl. by rewrite (Hlast a).
  - rewrite IH; [done|]. intros c Hc. apply Hlast. done.
Qed.

Lemma rstrip_snoc p s a :
  p a = true → rstrip p (s +:+ String a EmptyString) = rstrip p s.
Proof.
  intros Hp. induction s as [|b s IH].
  - simpl. by rewrite Hp.
  - rewrite app_cons. simpl. by rewrite IH.
Qed.

Lemma strip_snoc p s a :
  p a = true → strip p (s +:+ String a EmptyString) = strip p s.
Proof.
  intros Hp. unfold strip. induction s as [|b s IH].
  - simpl. by rewrite Hp.
  - rewrite app_cons. simpl. destruct (p b); [done|].
    rewrite <- app_cons. by apply rstrip_snoc.
Qed.

Lemma app_snoc_assoc s a t :
  s +:+ String a t = (s +:+ String a EmptyString) +:+ t.
Proof. induction s as [|b s IH]; [done|]. by rewrite !app_cons, IH. Qed.

Lemma strip_app p s t :
  Forall (λ a, p a = true) (chars t) → strip p (s +:+ t) = strip p s.
Proof.
  revert s. induction t as [|a t IH]; intros s Ht.
  - f_equal. apply chars_inj. rewrite chars_app. simpl. by rewrite app_nil_r.
  - simpl in Ht. apply Forall_cons in Ht as [Ha Ht].
    rewrite app_snoc_assoc, IH by done. by apply strip_snoc.
Qed.

Lemma concat_split sep s :
  String.concat (String sep EmptyString) (split sep s) = s.
Proof.
  induction s as [|a s IH]; [done|]. simpl.
  destruct (split_cons sep s) as (f & fs & Hs). rewrite Hs in *.
  case_decide as Ha.
  - subst a. destruct fs; simpl in *; by rewrite IH.
  - destruct fs; simpl in *; [by rewrite IH|].
    rewrite app_cons. by rewrite IH.
Qed.
End strings.

Section format_line.
Implicit Types s raw : string.

Lemma is_newline_is_space a : is_newline a = true → is_space a = true.
Proof.
  unfold is_newline, is_space. intros Hn%bool_decide_eq_true.
  apply bool_decide_eq_true. right. destruct Hn as [-> | ->]; lia.
Qed.

Lemma newline_not_comma (l : list Ascii.ascii) :
  Forall (λ a, is_newline a = true) l → filter (λ a, a = comma) l = [].
Proof.
  induction 1 as [|a l Ha Hl IH]; [done|].
  rewrite filter_cons_False; [done|]. intros ->. done.
Qed.

Lemma strip_last p s a : last (chars (strip p s)) = Some a → p a = false.
Proof. apply rstrip_last. Qed.

Lemma format_line_cons raw : ∃ name fields, format_line raw = name :: fields.
Proof.
  unfold format_line.
  destruct (split_cons comma (strip is_newline raw)) as (f & fs & ->).
  csimpl. eauto.
Qed.

Lemma format_line_length raw :
  length (format_line raw) = S (length (filter (λ a, a = comma) (chars raw))).
Proof.
  unfold format_line. rewrite length_fmap, split_length. f_equal.
  destruct (strip_chars is_newline raw) as (pre & suf & -> & Hpre & Hsuf).
  rewrite !filter_app, (newline_not_comma pre Hpre), (newline_not_comma suf Hsuf).
  by rewrite app_nil_r.
Qed.

Lemma format_line_field raw f :
  f ∈ format_line raw →
  (comma ∉ chars f) ∧
  (∀ a, head (chars f) = Some a → is_space a = false) ∧
  (∀ a, last (chars f) = Some a → is_space a = false).
Proof.
  unfold format_line. intros (f0 & -> & Hf0)%list_elem_of_fmap.
  split; [|split].
  - apply split_no_sep in Hf0.
    destruct (strip_chars is_space f0) as (pre & suf & Hchars & _).
    intros Hin. apply Hf0. rewrite Hchars. set_solver.
  - apply strip_head.
  - apply strip_last.
Qed.

Lemma split_app sep s t :
  sep ∉ chars s → split sep (s +:+ String sep t) = s :: split sep t.
Proof.
  induction s as [|a s IH]; intros Hs.
  - simpl. by rewrite decide_True.
  - rewrite app_cons. simpl in *. rewrite decide_False by set_solver.
    rewrite IH by set_solver. done.
Qed.

Lemma split_whole sep s : sep ∉ chars s → split sep s = [s].
Proof.
  induction s as [|a s IH]; intros Hs; [done|]. simpl in *.
  rewrite decide_False by set_solver. by rewrite IH by set_solver.
Qed.

Lemma concat_cons sep (f g : string) (fs : list string) :
  String.concat (String sep EmptyString) (f :: g :: fs) =
    f +:+ String sep (String.concat (String sep EmptyString) (g :: fs)).
Proof. reflexivity. Qed.

Lemma split_concat sep (fs : list string) :
  fs ≠ [] → Forall (λ f, sep ∉ chars f) fs →
  split sep (String.concat (String sep EmptyString) fs) = fs.
Proof.
  intros Hne Hfs. induction Hfs as [|f fs Hf Hfs IH]; [done|].
  destruct fs as [|g fs].
  - simpl. by apply split_whole.
  - rewrite concat_cons, split_app by done. by rewrite IH.
Qed.

Lemma concat_head (fs : list string) a :
  Forall (λ f, ∀ b, head (chars f) = Some b → is_space b = false) fs →
  head (chars (String.concat (String comma EmptyString) fs)) = Some a →
  is_newline a = false.
Proof.
  intros Hfs. destruct Hfs as [|f fs Hf Hfs]; [done|].
  assert (∀ b, head (chars f) = Some b → is_newline b = false) as Hf'.
  { intros b Hb. specialize (Hf b Hb). destruct (is_newline b) eqn:Hn; [|done].
    apply is_newline_is_space in Hn. congruence. }
  destruct fs as [|g fs]; [apply Hf'|].
  rewrite concat_cons, chars_app, head_app.
  destruct (head (chars f)) as [b|] eqn:Hb; [intros [= <-]; by apply Hf'|].
  simpl. by intros [= <-].
Qed.

Lemma concat_last (fs : list string) a :
  Forall (λ f, ∀ b, last (chars f) = Some b → is_space b = false) fs →
  last (chars (String.concat (String comma EmptyString) fs)) = Some a →
  is_newline a = false.
Proof.
  intros Hfs. revert a. induction Hfs as [|f fs Hf Hfs IH]; intros a; [done|].
  assert (∀ b, last (chars f) = Some b → is_newline b = false) as Hf'.
  { intros b Hb. specialize (Hf b Hb). destruct (is_newline b) eqn:Hn; [|done].
    apply is_newline_is_space in Hn. congruence. }
  destruct fs as [|g fs]; [apply Hf'|].
  rewrite concat_cons, chars_app. cbn [chars].
  rewrite last_app. rewrite last_cons.
  destruct (last (chars (String.concat (String comma EmptyString) (g :: fs))))
    as [b|] eqn:Hb.
  - intros [= <-]. by apply IH.
  - by intros [= <-].
Qed.

End format_line.

Section main_of_file.
Context `{FloatOfStr}.
Variable items : list string.

Lemma raw_line_step_parsed st raw :
  raw_line_step items st raw = line_step items st (parse_row raw).
Proof.
  unfold raw_line_step, line_step, parse_row. cbv zeta.
  destruct (format_line_cons raw) as (name & fields & ->). simpl.
  case_decide; [|done].
  by destruct (check_restaurant _ _ _ _).
Qed.

Lemma raw_line_loop_parsed st raws :
  raw_line_loop items st raws = line_loop items st (parse_row <$> raws).
Proof.
  revert st. induction raws as [|raw raws IH]; intros st; [done|].
  csimpl. rewrite raw_line_step_parsed.
  destruct (line_step _ _ _); simpl; [apply IH|done].
Qed.
End main_of_file.

(** X14: the formatted line has one field more than the line has
    commas, hence at least one, so that [line[0]] is always there; no
    field holds a comma, and no field begins or ends with a white-space
    character. *)
Theorem format_line_fields (raw : string) :
  length (format_line raw) = S (length (filter (λ a, a = comma) (chars raw))) ∧
  ∀ f, f ∈ format_line raw →
    (comma ∉ chars f) ∧
    (∀ a, head (chars f) = Some a → is_space a = false) ∧
    (∀ a, last (chars f) = Some a → is_space a = false).
Proof. split; [apply format_line_length|apply format_line_field]. Qed.

(** X15: carriage returns and line feeds at the end of a line do not
    change its fields: a line is formatted alike whether it ends with a
    line feed, with a carriage return and a line feed, or with
    neither. *)
Theorem format_line_line_end (raw t : string) :
  Forall (λ a, is_newline a = true) (chars t) →
  format_line (raw +:+ t) = format_line raw.
Proof. intros Ht. unfold format_line. by rewrite strip_app. Qed.

Lemma format_line_line_end_witness :
  let crlf := String (Ascii.ascii_of_N 13) (String (Ascii.ascii_of_N 10) EmptyString) in
  format_line ("A, 5 ,coffee" +:+ crlf) = format_line "A, 5 ,coffee".
Proof.
  apply (format_line_line_end "A, 5 ,coffee"
           (String (Ascii.ascii_of_N 13) (String (Ascii.ascii_of_N 10) EmptyString))).
  by repeat constructor.
Defined.

(** X16: formatting is stable: the fields of a line, joined with
    commas and formatted again, are the same fields. *)
Theorem format_line_round_trip (raw : string) :
  format_line (String.concat (String comma EmptyString) (format_line raw))
    = format_line raw.
Proof.
  pose proof (format_line_field raw) as Hfields.
  destruct (format_line_cons raw) as (name & fields & Hline).
  set (fs := format_line raw) in *. unfold format_line at 1.
  rewrite strip_fixed.
  - rewrite split_concat.
    + apply list_eq. intros i. rewrite list_lookup_fmap.
      destruct (fs !! i) as [f|] eqn:Hf; [|done]. simpl. f_equal.
      apply list_elem_of_lookup_2 in Hf. apply strip_fixed; by apply Hfields.
    + by rewrite Hline.
    + apply Forall_forall. intros f Hf. by apply Hfields.
  - intros a. apply concat_head. apply Forall_forall. intros f Hf. by apply Hfields.
  - intros a. apply concat_last. apply Forall_forall. intros f Hf. by apply Hfields.
Qed.

(** X17: on the lines that the file yields, [main] does what it does on
    their names and fields: reading [line[0]] never fails, whatever a
    line holds, and an empty line counts as a line of the restaurant
    with the empty name and with no field. *)
Theorem main_of_file_parsed `{FloatOfStr} (raws : list string) (items : list string) :
  main_of_file raws items = main (parse_row <$> raws) items ∧
  (∀ raw, ∃ name fields,
      format_line raw = name :: fields ∧ parse_row raw = (name, fields)) ∧
  parse_row EmptyString = (EmptyString, []).
Proof.
  split; [|split; [|done]].
  - unfold main_of_file, main, check_lines. case_decide; [done|].
    rewrite raw_line_loop_parsed.
    by destruct (line_loop _ _ _).
  - intros raw. destruct (format_line_cons raw) as (name & fields & Hline).
    exists name, fields. split; [done|]. unfold parse_row. by rewrite Hline.
Qed.

(** ** reduce_menu: the order of the request, and longer menus *)

Section reduce_menu_compose.
Implicit Types m r : list (list string).
Implicit Types items : list string.

Lemma common_perm (a : list string) items items' :
  items ≡ₚ items' → common a items = common a items'.
Proof.
  intros Hperm. unfold common.
  by rewrite (list_to_set_perm_L (C := gset string) items items' Hperm).
Qed.

Lemma shares_item_perm items items' (c : list string) :
  items ≡ₚ items' → shares_item items c ↔ shares_item items' c.
Proof. intros Hperm. unfold shares_item. by rewrite (common_perm _ _ _ Hperm). Qed.

Lemma common_app_l (a a' : list string) items :
  common a items = length items → common (a ++ a') items = length items.
Proof.
  intros Hc. assert (NoDup items) as Hnd.
  { destruct (decide (NoDup items)) as [|Hdup]; [done|].
    pose proof (common_le_set a items). pose proof (size_list_to_set_dup items Hdup).
    lia. }
  apply (common_full _ _ Hnd). intros x Hx.
  apply elem_of_app. left. by apply (proj1 (common_full _ _ Hnd) Hc).
Qed.

Lemma common_app_r (a a' : list string) items :
  common a items = length items → common (a' ++ a) items = length items.
Proof.
  intros Hc. assert (NoDup items) as Hnd.
  { destruct (decide (NoDup items)) as [|Hdup]; [done|].
    pose proof (common_le_set a items). pose proof (size_list_to_set_dup items Hdup).
    lia. }
  apply (common_full _ _ Hnd). intros x Hx.
  apply elem_of_app. right. by apply (proj1 (common_full _ _ Hnd) Hc).
Qed.

Lemma reduce_menu_perm m items items' :
  items ≡ₚ items' → reduce_menu m items = reduce_menu m items'.
Proof.
  intros Hperm. rewrite !reduce_menu_unfold. cbv zeta.
  rewrite (list_filter_iff (shares_item items) (shares_item items') m)
    by (intros c; by apply shares_item_perm).
  rewrite (common_perm _ _ _ Hperm), (Permutation_length Hperm). done.
Qed.

Lemma get_min_cost_any_request `{FloatOfStr} m items items' :
  get_min_cost m items = get_min_cost m items'.
Proof.
  destruct m as [|c [|c2 m]]; [done..|]. by rewrite !get_min_cost_raises.
Qed.

Lemma check_restaurant_perm `{FloatOfStr} items items' cr m b :
  items ≡ₚ items' →
  check_restaurant items cr m b = check_restaurant items' cr m b.
Proof.
  intros Hperm. unfold check_restaurant.
  rewrite (reduce_menu_perm m _ _ Hperm).
  destruct (reduce_menu m items') as [r|]; [|done].
  by rewrite (get_min_cost_any_request r items items').
Qed.

Lemma line_loop_perm `{FloatOfStr} items items' st lines :
  items ≡ₚ items' → line_loop items st lines = line_loop items' st lines.
Proof.
  intros Hperm. revert st. induction lines as [|line lines IH]; intros st; [done|].
  simpl. unfold line_step. rewrite (check_restaurant_perm _ _ _ _ _ Hperm).
  case_decide.
  - destruct (check_restaurant _ _ _ _); simpl; [apply IH|done].
  - simpl. apply IH.
Qed.
End reduce_menu_compose.

(** X18: the order in which the items are requested does not matter:
    for two requests with the same items in another order [reduce_menu]
    returns the same for every menu, and [main] ends alike for every
    file. *)
Theorem request_order `{FloatOfStr} (items items' : list string) :
  items ≡ₚ items' →
  (∀ m, reduce_menu m items = reduce_menu m items') ∧
  (∀ lines, main lines items = main lines items').
Proof.
  intros Hperm. split; [intros m; by apply reduce_menu_perm|].
  intros lines. unfold main, check_lines.
  rewrite (Permutation_length Hperm), (line_loop_perm _ _ _ _ Hperm).
  case_decide; [done|].
  destruct (line_loop _ _ _) as [st|]; simpl; [|done].
  by rewrite (check_restaurant_perm _ _ _ _ _ Hperm).
Qed.

Lemma request_order_witness :
  let items := ["coffee"; "apples"] in
  let items' := ["apples"; "coffee"] in
  (∀ m, reduce_menu m items = reduce_menu m items') ∧
  (∀ lines, @main decimal_float_of_str lines items
            = @main decimal_float_of_str lines items').
Proof.
  apply (@request_order decimal_float_of_str
           ["coffee"; "apples"] ["apples"; "coffee"]).
  apply perm_swap.
Defined.

(** X19: more combos never turn a menu down: when [reduce_menu] returns
    a menu for [m1], it returns one for [m1] followed or preceded by any
    other combos [m2], namely the kept combos of [m1] together with the
    combos of [m2] that sell a requested item, in the order of the
    menu. *)
Theorem reduce_menu_longer_menu (m1 m2 r1 : list (list string)) (items : list string) :
  reduce_menu m1 items = Some r1 →
  reduce_menu (m1 ++ m2) items = Some (r1 ++ filter (shares_item items) m2) ∧
  reduce_menu (m2 ++ m1) items = Some (filter (shares_item items) m2 ++ r1).
Proof.
  intros [-> Hc]%reduce_menu_Some. split; apply reduce_menu_Some.
  - rewrite filter_app. split; [done|].
    rewrite fmap_app, join_app. by apply common_app_l.
  - rewrite filter_app. split; [done|].
    rewrite fmap_app, join_app. by apply common_app_r.
Qed.

Lemma reduce_menu_longer_menu_witness :
  let m1 := [["7"; "coffee"; "apples"]] in
  let m2 := [["2"; "tea"]; ["3"; "apples"]] in
  let items := ["coffee"; "apples"] in
  reduce_menu (m1 ++ m2) items = Some (m1 ++ filter (shares_item items) m2) ∧
  reduce_menu (m2 ++ m1) items = Some (filter (shares_item items) m2 ++ m1).
Proof.
  apply (reduce_menu_longer_menu [["7"; "coffee"; "apples"]]
           [["2"; "tea"]; ["3"; "apples"]] [["7"; "coffee"; "apples"]]
           ["coffee"; "apples"]).
  by vm_compute.
Defined.

(** ** main as a whole: how it fails *)

Section main_argv.
Context `{FloatOfStr}.

Lemma main_of_file_rows (raws : list string) (items : list string) :
  main_of_file raws items = main (parse_row <$> raws) items.
Proof.
  unfold main_of_file, main, check_lines. case_decide; [done|].
  rewrite raw_line_loop_parsed. by destruct (line_loop _ _ _).
Qed.

Lemma main_argv_no_name (open_file : string → option (list string))
    (argv : list string) :
  (length argv < 2)%nat → main_argv open_file argv = Raise IndexError.
Proof.
  intros Hlen. unfold main_argv, index.
  by rewrite (proj2 (lookup_ge_None argv 1)) by lia.
Qed.

Lemma main_argv_not_opened (open_file : string → option (list string))
    (argv : list string) (name : string) :
  argv !! 1%nat = Some name → open_file name = None →
  main_argv open_file argv = Ok (CouldNotOpen name).
Proof. intros Hname Hopen. unfold main_argv, index. by rewrite Hname, Hopen. Qed.

Lemma main_argv_opened (open_file : string → option (list string))
    (argv : list string) (name : string) (raws : list string) :
  argv !! 1%nat = Some name → open_file name = Some raws →
  main_argv open_file argv =
    p ← main (parse_row <$> raws) (drop 2 argv); Ok (Ran p).
Proof.
  intros Hname Hopen. unfold main_argv. by rewrite Hname, Hopen, main_of_file_rows.
Qed.
End main_argv.

(** X13: [main] as a whole fails in three ways only: with [IndexError],
    and then no file name was given ([sys.argv[1]] is missing, and the
    [except] branch reads it again for its message); with
    [AttributeError], and then the file was opened and some restaurant of
    it keeps two or more combos for the request; or with [ValueError], and
    then the file was opened and some restaurant of it keeps exactly one
    combo whose cost field [float] rejects.  It never fails with
    [KeyError], [TypeError] or [OverflowError], and a file that cannot be
    opened is no failure: [main] prints its complaint and returns. *)
Theorem main_failures `{FloatOfStr} (open_file : string → option (list string))
    (argv : list string) :
  (∀ e, main_argv open_file argv = Raise e →
     (e = IndexError ∧ (length argv < 2)%nat) ∨
     ∃ name raws g r,
       argv !! 1%nat = Some name ∧ open_file name = Some raws ∧
       g ∈ restaurants (parse_row <$> raws) ∧
       reduce_menu g.2 (drop 2 argv) = Some r ∧
       ((e = AttributeError ∧ (2 ≤ length r)%nat) ∨
        (e = ValueError ∧
         ∃ cost its, r = [cost :: its] ∧ float_of_str cost = None))) ∧
  ((length argv < 2)%nat → main_argv open_file argv = Raise IndexError) ∧
  (∀ name, argv !! 1%nat = Some name → open_file name = None →
     main_argv open_file argv = Ok (CouldNotOpen name)).
Proof.
  split; [|split; [apply main_argv_no_name|apply main_argv_not_opened]].
  intros e Hrun. destruct (argv !! 1%nat) as [name|] eqn:Hname.
  - destruct (open_file name) as [raws|] eqn:Hopen.
    + right. rewrite (main_argv_opened _ _ _ _ Hname Hopen) in Hrun.
      destruct (main (parse_row <$> raws) (drop 2 argv)) as [p|e'] eqn:Hmain;
        simpl in Hrun; [done|]. injection Hrun as ->.
      apply main_Raise in Hmain as [Hitems Hall].
      destruct (check_all_raises _ _ best_init e Hitems kept_cost_ok_init Hall)
        as (g & r & Hg & Hr & Hkind).
      by exists name, raws, g, r.
    + by rewrite (main_argv_not_opened _ _ _ Hname Hopen) in Hrun.
  - left. apply lookup_ge_None in Hname.
    rewrite main_argv_no_name in Hrun by lia. injection Hrun as <-.
    split; [done|lia].
Qed.

Lemma main_failures_witness :
  let open_file := λ name : string,
    if decide (name = "menu.txt")
    then Some ["A,5,coffee"; "A,3,apples"; "B,7,coffee,apples"]
    else None in
  (∃ name raws g r,
     ["mincombo.py"; "menu.txt"; "coffee"; "apples"] !! 1%nat = Some name ∧
     open_file name = Some raws ∧
     g ∈ restaurants (parse_row <$> raws) ∧
     reduce_menu g.2 ["coffee"; "apples"] = Some r ∧ (2 ≤ length r)%nat) ∧
  @main_argv decimal_float_of_str open_file ["mincombo.py"] = Raise IndexError ∧
  @main_argv decimal_float_of_str open_file ["mincombo.py"; "other.txt"; "coffee"]
    = Ok (CouldNotOpen "other.txt").
Proof.
  pose proof (λ argv, @main_failures decimal_float_of_str
     (λ name : string,
        if decide (name = "menu.txt")
        then Some ["A,5,coffee"; "A,3,apples"; "B,7,coffee,apples"]
        else None) argv) as Hfail.
  split; [|split].
  - destruct (proj1 (Hfail ["mincombo.py"; "menu.txt"; "coffee"; "apples"])
                AttributeError ltac:(by vm_compute))
      as [[Hne _]|(name & raws & g & r & Hname & Hopen & Hg & Hr & Hkind)]; [done|].
    exists name, raws, g, r. repeat split; try done.
    destruct Hkind as [[_ Hlen]|[Hne _]]; done.
  - apply (proj1 (proj2 (Hfail ["mincombo.py"]))). simpl. lia.
  - by apply (proj2 (proj2 (Hfail ["mincombo.py"; "other.txt"; "coffee"])) "other.txt").
Defined.

(** A flag beyond the range of the floats. *)
Example price_loop_overflow :
  @price_loop decimal_float_of_str [["5"; "coffee"]] [2 ^ 1024] [0%nat] 0%float
    = Raise OverflowError.
Proof. by vm_compute. Qed.

Example float_of_int_flags :
  float_of_int 0 = Ok 0%float ∧ float_of_int 1 = Ok 1%float ∧
  float_of_int (2 ^ 1024 - 1) = Raise OverflowError.
Proof. by vm_compute. Qed.
